(** * Merkle tree engine and certificate binding of the guardians SDK

    A shallow embedding of [pkg/merkle] (the array-backed Merkle tree) and of
    [pkg/zkcertificate/certificate.go] (certificate construction, leaf hash,
    DID, provider-data decoding), followed by the properties of the
    specification that concern them.

    Conventions of the embedding:
    - Go's [int] is 64 bits wide: every [+], [-], [*], [/] and [<<] of the
      source is written with its wrap-around ([Go.add], [Go.sub], ...).
    - A Go function returning [(T, error)] returns a [result T]; a run-time
      panic (index out of range, [make] length out of range, negative shift
      count) is the outcome [Panic].
    - A slice is a [list]; [s[i]] and [s[i] = v] are [Go.index] and
      [Go.store], which panic out of range.
    - [*uint256.Int] and [*big.Int] are [option Z]: [None] is the nil
      pointer (the zero value of a [TreeNode] holds one).
    - Loops whose variable is not a structural argument take a fuel; the
      outcome [OutOfFuel] marks an exhausted fuel and is shown not to occur.
    - The Poseidon hash, the BabyJubJub signature check and the JSON decoder
      are libraries: they are section variables. *)

From Stdlib Require Import ZArith Lia String Ascii DecimalString DecimalPos DecimalN.

From stdpp Require Import base list.

Local Open Scope Z_scope.

(** ** Go run-time conventions *)

Module Go.

(** An [error] value: [fmt.Errorf] without a verb, or wrapping with [%w]. *)
Inductive error : Type :=
| errorString (msg : string)
| wrapError (msg : string) (cause : error).

Inductive result (A : Type) : Type :=
| Ok (a : A)
| Err (e : error)
| Panic
| OutOfFuel.

Arguments Ok {A} a.
Arguments Err {A} e.
Arguments Panic {A}.
Arguments OutOfFuel {A}.

Definition bind {A B : Type} (m : result A) (k : A -> result B) : result B :=
  match m with
  | Ok a => k a
  | Err e => Err e
  | Panic => Panic
  | OutOfFuel => OutOfFuel
  end.

(** [fmt.Errorf("msg: %w", err)] on the error branch of a call. *)
Definition wrapErr {A : Type} (msg : string) (m : result A) : result A :=
  match m with
  | Err e => Err (wrapError msg e)
  | other => other
  end.

(** Two's-complement reduction to the 64-bit [int] range. *)
Definition wrap (z : Z) : Z := (z + 2 ^ 63) mod 2 ^ 64 - 2 ^ 63.

Definition add (x y : Z) : Z := wrap (x + y).
Definition sub (x y : Z) : Z := wrap (x - y).
Definition mul (x y : Z) : Z := wrap (x * y).
(** Integer division truncates toward zero. *)
Definition div (x y : Z) : Z := wrap (Z.quot x y).
(** The remainder takes the sign of the dividend. *)
Definition rem (x y : Z) : Z := Z.rem x y.
(** [x << n]: a negative count panics, a count of 64 or more gives 0. *)
Definition shl (x n : Z) : result Z :=
  if n <? 0 then Panic
  else Ok (if 64 <=? n then 0 else wrap (x * 2 ^ n)).

Definition len {A : Type} (s : list A) : Z := Z.of_nat (length s).

(** The largest allocation of the run time on a 64-bit platform, in bytes. *)
Definition maxAlloc : Z := 2 ^ 48.

(** [make([]T, n)] for elements of [elemSize] bytes: [n] zero values.  A
    negative length and a length beyond the allocation limit panic
    ([makeslice: len out of range]). *)
Definition make {A : Type} (elemSize n : Z) (zero : A) : result (list A) :=
  if (n <? 0) || (maxAlloc <? n * elemSize) then Panic
  else Ok (replicate (Z.to_nat n) zero).

(** [s[i]] *)
Definition index {A : Type} (s : list A) (i : Z) : result A :=
  if i <? 0 then Panic
  else match s !! Z.to_nat i with
       | Some a => Ok a
       | None => Panic
       end.

(** [s[i] = v] *)
Definition store {A : Type} (s : list A) (i : Z) (v : A) : result (list A) :=
  if i <? 0 then Panic
  else if (Z.to_nat i <? length s)%nat then Ok (<[Z.to_nat i := v]> s)
  else Panic.

(** [int(math.Log2(float64(x)))].  [math.Log2] is exact on powers of two
    (it returns the binary exponent found by [Frexp]), which is the only
    case the tree engine produces for a complete tree; elsewhere the
    floating-point rounding is not modelled and the floor is taken. *)
Definition Log2 (x : Z) : Z := Z.log2 x.

End Go.

Export Go.

Notation "'let*' x := m 'in' k" := (Go.bind m (fun x => k))
  (at level 10, x pattern, m at level 100, k at level 200).

(** ** Package merkle *)

Module merkle.

Record TreeNode : Type := { Value : option Z }.

Record Tree : Type := { Nodes : list TreeNode }.

(** The source's [Proof] struct. [Indices] is a bitmask whose bit [k]
    belongs to [Path[k]]. *)
Record MerkleProof : Type := { Path : list TreeNode; Indices : Z }.

(** A [TreeNode] is one pointer wide. *)
Definition sizeofTreeNode : Z := 8.

(** The zero value [TreeNode{}]. *)
Definition zeroNode : TreeNode := {| Value := None |}.

Definition TreeDepth : Z := 32.

(** [ToBig] of [uint256.Int]: nil stays nil. *)
Definition ToBig (v : option Z) : option Z := v.

(** [uint256.FromBig]: the low 256 bits (two's complement for a negative
    input) and the overflow flag. *)
Definition FromBig (b : Z) : Z * bool := (b mod 2 ^ 256, 2 ^ 256 <=? Z.abs b).

Definition GetParentIndex (i : Z) : Z := Go.div (Go.sub i 1) 2.

Definition IsRightChild (i : Z) : bool := Go.rem i 2 =? 0.

Definition GetSiblingIndex (i : Z) : Z :=
  if IsRightChild i then Go.sub i 1 else Go.add i 1.

Definition getChildrenOf (i : Z) (nodes : list TreeNode)
  : result (TreeNode * TreeNode) :=
  let* l := Go.index nodes (Go.add (Go.mul i 2) 1) in
  let* r := Go.index nodes (Go.add (Go.mul i 2) 2) in
  Ok (l, r).

Definition Root (t : Tree) : result TreeNode := Go.index (Nodes t) 0.

Definition GetLeavesAmount (t : Tree) : Z :=
  Go.div (Go.add (Go.len (Nodes t)) 1) 2.

Section WithHash.

(** [HashFunc], that is [poseidon.Hash]. *)
Variable HashFunc : list (option Z) -> result Z.

Definition computeNodeHash (left right : TreeNode) : result TreeNode :=
  let* val := HashFunc [ToBig (Value left); ToBig (Value right)] in
  let '(convertedVal, isOverflow) := FromBig val in
  if isOverflow then Err (errorString "invalid hash")
  else Ok {| Value := Some convertedVal |}.

Definition computeChildrenHash (i : Z) (nodes : list TreeNode)
  : result TreeNode :=
  let* (l, r) := getChildrenOf i nodes in
  computeNodeHash l r.

(** The inner loop of [NewEmptyTree]:
    [for j := 0; j < nodesAmount; j++ { nodes[firstNodeIndex+j].Value = leafValue }]. *)
Fixpoint fillLevel (fuel : nat) (j nodesAmount firstNodeIndex : Z)
    (leafValue : option Z) (nodes : list TreeNode) : result (list TreeNode) :=
  if j <? nodesAmount then
    match fuel with
    | O => OutOfFuel
    | S fuel' =>
        let* nodes' := Go.store nodes (Go.add firstNodeIndex j)
                                {| Value := leafValue |} in
        fillLevel fuel' (Go.add j 1) nodesAmount firstNodeIndex leafValue nodes'
    end
  else Ok nodes.

(** The outer loop of [NewEmptyTree], one iteration per level, leaves
    first. *)
Fixpoint buildLevels (fuel : nat) (depth i nodesAmount firstNodeIndex : Z)
    (leafValue : option Z) (nodes : list TreeNode) : result (list TreeNode) :=
  if i <? depth then
    match fuel with
    | O => OutOfFuel
    | S fuel' =>
        let firstNodeIndex := Go.sub firstNodeIndex nodesAmount in
        let* nodes := fillLevel (Z.to_nat nodesAmount) 0 nodesAmount
                                firstNodeIndex leafValue nodes in
        let* leafValue :=
          (if firstNodeIndex >? 0 then
             let* node := wrapErr "compute hash"
                            (computeChildrenHash (Go.sub firstNodeIndex 1) nodes) in
             Ok (Value node)
           else Ok leafValue) in
        buildLevels fuel' depth (Go.add i 1) (Go.div nodesAmount 2)
                    firstNodeIndex leafValue nodes
    end
  else Ok nodes.

Definition NewEmptyTree (depth : Z) (leafValue : option Z) : result Tree :=
  if depth <? 1 then Err (errorString "invalid tree depth")
  else
    let* size := Go.shl 1 depth in
    let* nodes := Go.make sizeofTreeNode (Go.sub size 1) zeroNode in
    let* nodesAmount := Go.shl 1 (Go.sub depth 1) in
    let* nodes := buildLevels (Z.to_nat depth) depth 0 nodesAmount
                              (Go.len nodes) leafValue nodes in
    Ok {| Nodes := nodes |}.

(** [t.Nodes[j], err = computeChildrenHash(j, t.Nodes)] followed by the
    check of [err].  Both results of the call are assigned before the
    check, so a failed hash leaves the zero node in slot [j]. *)
Definition storeChildrenHash (j : Z) (nodes : list TreeNode)
  : list TreeNode * result unit :=
  match computeChildrenHash j nodes with
  | Ok h =>
      match Go.store nodes j h with
      | Ok nodes' => (nodes', Ok tt)
      | _ => (nodes, Panic)
      end
  | Err e =>
      match Go.store nodes j zeroNode with
      | Ok nodes' => (nodes', Err (wrapError "compute hash" e))
      | _ => (nodes, Panic)
      end
  | Panic => (nodes, Panic)
  | OutOfFuel => (nodes, OutOfFuel)
  end.

(** [for j := GetParentIndex(j); j > 0; j = GetParentIndex(j) { ... }] *)
Fixpoint recomputeAncestors (fuel : nat) (j : Z) (nodes : list TreeNode)
  : list TreeNode * result unit :=
  if j >? 0 then
    match fuel with
    | O => (nodes, OutOfFuel)
    | S fuel' =>
        match storeChildrenHash j nodes with
        | (nodes', Ok _) => recomputeAncestors fuel' (GetParentIndex j) nodes'
        | failed => failed
        end
    end
  else (nodes, Ok tt).

(** [SetLeaf] mutates the tree in place: the tree after the call is
    returned next to the outcome, also when the call fails or panics. *)
Definition SetLeaf (t : Tree) (i : Z) (val : TreeNode) : Tree * result unit :=
  let leavesAmount := GetLeavesAmount t in
  if (i >=? leavesAmount) || (i <? 0) then
    (t, Err (errorString "invalid leaf index"))
  else
    let j := Go.add (Go.sub (Go.len (Nodes t)) leavesAmount) i in
    match Go.store (Nodes t) j val with
    | Ok nodes =>
        match recomputeAncestors (Z.to_nat j) (GetParentIndex j) nodes with
        | (nodes, Ok _) =>
            let '(nodes, r) := storeChildrenHash 0 nodes in
            ({| Nodes := nodes |}, r)
        | (nodes, r) => ({| Nodes := nodes |}, r)
        end
    | _ => (t, Panic)
    end.

End WithHash.

(** [for level := 0; j > 0; j, level = GetParentIndex(j), level+1 { ... }] *)
Fixpoint collectSiblings (fuel : nat) (nodes : list TreeNode) (j level : Z)
    (proof : MerkleProof) : result MerkleProof :=
  if j >? 0 then
    match fuel with
    | O => OutOfFuel
    | S fuel' =>
        let* bit := Go.shl (Go.rem j 2) level in
        let indices := Z.lor (Indices proof) bit in
        let siblingIndex := GetSiblingIndex j in
        let* sibling := Go.index nodes siblingIndex in
        let* path := Go.store (Path proof) level sibling in
        collectSiblings fuel' nodes (GetParentIndex j) (Go.add level 1)
                        {| Path := path; Indices := indices |}
    end
  else Ok proof.

Definition GetProof (t : Tree) (i : Z) : result MerkleProof :=
  let leavesAmount := GetLeavesAmount t in
  if (i >=? leavesAmount) || (i <? 0) then
    Err (errorString "invalid leaf index")
  else
    let* path := Go.make sizeofTreeNode
                        (Go.Log2 (Go.add (Go.len (Nodes t)) 1)) zeroNode in
    let j := Go.add (Go.sub (Go.len (Nodes t)) leavesAmount) i in
    let* proof := collectSiblings (Z.to_nat j) (Nodes t) j 0
                                  {| Path := path; Indices := 0 |} in
    let* root := Root t in
    let* path := Go.store (Path proof) (Go.sub (Go.len (Path proof)) 1) root in
    Ok {| Path := path; Indices := Indices proof |}.

End merkle.

(** ** Text forms of integers in the libraries the packages call *)

Module strconv.

(** The value of a decimal digit character. *)
Definition digitValue (c : ascii) : option Z :=
  let n := Z.of_nat (nat_of_ascii c) in
  if (48 <=? n) && (n <=? 57) then Some (n - 48) else None.

Fixpoint scanDigits (s : string) (acc : Z) : option Z :=
  match s with
  | EmptyString => Some acc
  | String c rest =>
      match digitValue c with
      | Some d => scanDigits rest (acc * 10 + d)
      | None => None
      end
  end.

(** One or more decimal digits and nothing else. *)
Definition scanUnsigned (s : string) : option Z :=
  match s with
  | EmptyString => None
  | _ => scanDigits s 0
  end.

(** ** What the specification calls a decimal integer *)

Definition isDigits (s : string) : bool :=
  match scanUnsigned s with Some _ => true | None => false end.

(** An optional sign followed by digits. *)
Definition isDecimalInteger (s : string) : bool :=
  match s with
  | String "-" rest => isDigits rest
  | String "+" rest => isDigits rest
  | _ => isDigits s
  end.

(** A minus sign followed by digits. *)
Definition isNegativeDecimal (s : string) : bool :=
  match s with
  | String "-" rest => isDigits rest
  | _ => false
  end.

End strconv.

Module big.

(** [new(big.Int).SetString(s, 10)] of math/big: an optional sign ([+] or
    [-]), then one or more decimal digits; the entire string must be
    consumed.  [None] is the result [(nil, false)]. *)
Definition SetString10 (s : string) : option Z :=
  match s with
  | String "-" rest => Z.opp <$> strconv.scanUnsigned rest
  | String "+" rest => strconv.scanUnsigned rest
  | _ => strconv.scanUnsigned s
  end.

(** [(x *big.Int).String()]: the decimal text, with a minus sign for a
    negative value; the nil pointer prints as [<nil>]. *)
Definition String (x : option Z) : string :=
  match x with
  | Some z => NilZero.string_of_int (Z.to_int z)
  | None => "<nil>"
  end.

End big.

Module uint256.

(** [uint256.FromDecimal]: at most one leading [+], then decimal digits
    only (the chunks go through [strconv.ParseUint], which admits no
    sign), and a value below 2^256.  Only the fact of an error is
    modelled, not its identity. *)
Definition FromDecimal (s : string) : result Z :=
  let digits := match s with String "+" rest => rest | _ => s end in
  match strconv.scanUnsigned digits with
  | Some v =>
      if v <? 2 ^ 256 then Ok v
      else Err (errorString "hex number > 256 bits")
  | None => Err (errorString "invalid syntax")
  end.

(** [Dec]: the decimal text of the value. *)
Definition Dec (v : Z) : string := NilZero.string_of_uint (N.to_uint (Z.to_N v)).

End uint256.

Module merkle_text.

Import merkle.

(** [(n *TreeNode) UnmarshalText]: the receiver after the call and the
    returned error.  [FromDecimal] returns a nil pointer next to an
    error, and the assignment stores it. *)
Definition UnmarshalText (n : TreeNode) (text : string) : TreeNode * result unit :=
  match uint256.FromDecimal text with
  | Ok v => ({| Value := Some v |}, Ok tt)
  | Err e => ({| Value := None |}, Err e)
  | Panic => (n, Panic)
  | OutOfFuel => (n, OutOfFuel)
  end.

Definition MarshalText (n : TreeNode) : result string :=
  match Value n with
  | Some v => Ok (uint256.Dec v)
  | None => Panic
  end.

End merkle_text.

(** ** Package zkcertificate *)

Module babyjub.

(** Curve points hold [*big.Int] coordinates. *)
Record Point : Type := { X : option Z; Y : option Z }.

Definition PublicKey : Type := Point.

Record Signature : Type := { R8 : option Point; S : option Z }.

End babyjub.

Module providerDataDTO.

Record t : Type := {
  Ax : string;
  Bx : string;
  S : string;
  R8x : string;
  R8y : string
}.

End providerDataDTO.

Module zkcertificate.

(** Modelled from the spec: the type [Hash] is declared outside the files
    at hand; the specification makes it a field element with a decimal
    text form.  It is held as its integer value, [BigInt] gives that value
    and [String] its decimal text. *)
Definition Hash : Type := Z.

Definition Hash_BigInt (h : Hash) : option Z := Some h.

Definition Hash_String (h : Hash) : string := uint256.Dec h.

Definition zeroHash : Hash := 0.

Record ProviderData : Type := {
  PublicKey : babyjub.PublicKey;
  Signature : babyjub.Signature
}.

Record RegistrationDetails : Type := {
  Address : Z;
  Revocable : bool;
  LeafIndex : Z
}.

Section WithLibraries.

(** [poseidon.Hash] *)
Variable poseidon_Hash : list (option Z) -> result Z.
(** [VerifyPoseidon] of [babyjub.PublicKey] *)
Variable VerifyPoseidon :
  babyjub.PublicKey -> Z -> babyjub.Signature -> result bool.
(** [HashFromBigInt], the conversion of a hash output to [Hash]. *)
Variable HashFromBigInt : Z -> Hash.
(** The certificate standard and the text [%s] prints for it. *)
Variable Standard : Type.
Variable Standard_String : Standard -> string.
(** [time.Time] with its [Unix] seconds. *)
Variable Time : Type.
Variable Time_Unix : Time -> Z.
(** [json.Unmarshal] into a [providerDataDTO]. *)
Variable json_Unmarshal : string -> result providerDataDTO.t.
(** [json.Marshal] of a [providerDataDTO]. *)
Variable json_Marshal : providerDataDTO.t -> result string.
(** [babyjub.PrivateKey] and its [SignPoseidon]. *)
Variable PrivateKey : Type.
Variable SignPoseidon : PrivateKey -> Z -> babyjub.Signature.

Definition Timestamp : Type := Time.

(** The [Content] interface. *)
Class Content (T : Type) : Type := {
  Content_Hash : T -> result Hash;
  Content_Standard : T -> Standard
}.

Record Certificate (T : Type) : Type := {
  HolderCommitment : Hash;
  LeafHash_ : Hash;
  DID_ : string;
  Standard_ : Standard;
  Content_ : T;
  ContentHash : Hash;
  ExpirationDate : Timestamp;
  Provider : ProviderData;
  RandomSalt : Z
}.

Record IssuedCertificate (T : Type) : Type := {
  Certificate_ : Certificate T;
  Registration : RegistrationDetails;
  MerkleProof : merkle.MerkleProof
}.

Definition SignCertificate (providerKey : PrivateKey)
    (contentHash commitmentHash : Hash) : result babyjub.Signature :=
  let* message := wrapErr "hash message"
      (poseidon_Hash [Hash_BigInt contentHash; Hash_BigInt commitmentHash]) in
  Ok (SignPoseidon providerKey message).

Definition VerifySignature (providerKey : babyjub.PublicKey)
    (contentHash commitmentHash : Hash) (signature : babyjub.Signature)
  : result bool :=
  let* message := wrapErr "hash message"
      (poseidon_Hash [Hash_BigInt contentHash; Hash_BigInt commitmentHash]) in
  VerifyPoseidon providerKey message signature.

Definition LeafHash (contentHash : Hash) (providerPublicKey : babyjub.PublicKey)
    (signature : babyjub.Signature) (commitmentHash : Hash) (salt : Z)
    (expirationDate : Time) : result Hash :=
  match babyjub.R8 signature with
  | None => Panic
  | Some r8 =>
      let* hash := wrapErr "compute hash"
          (poseidon_Hash [
             Hash_BigInt contentHash;
             babyjub.X providerPublicKey;
             babyjub.Y providerPublicKey;
             babyjub.S signature;
             babyjub.X r8;
             babyjub.Y r8;
             Hash_BigInt commitmentHash;
             Some salt;
             Some (Time_Unix expirationDate)
           ]) in
      Ok (HashFromBigInt hash)
  end.

(** [fmt.Sprintf("did:%s:%s", standard, leafHash)] *)
Definition DID (standard : Standard) (leafHash : Hash) : string :=
  ("did:" ++ Standard_String standard ++ ":" ++ Hash_String leafHash)%string.

Definition New {T : Type} `{Content T} (holderCommitment : Hash) (content : T)
    (providerPublicKey : babyjub.PublicKey)
    (providerSignature : babyjub.Signature) (salt : Z)
    (expirationDate : Time) : result (Certificate T) :=
  let* contentHash := wrapErr "hash certificate content" (Content_Hash content) in
  let* signatureValid := wrapErr "verify signature"
      (VerifySignature providerPublicKey contentHash holderCommitment
                       providerSignature) in
  if negb signatureValid then Err (errorString "invalid signature")
  else
    let* leafHash := wrapErr "compute leaf hash"
        (LeafHash contentHash providerPublicKey providerSignature
                  holderCommitment salt expirationDate) in
    let standard := Content_Standard content in
    Ok {| HolderCommitment := holderCommitment;
          LeafHash_ := leafHash;
          DID_ := DID standard leafHash;
          Standard_ := standard;
          Content_ := content;
          ContentHash := contentHash;
          ExpirationDate := expirationDate;
          Provider := {| PublicKey := providerPublicKey;
                         Signature := providerSignature |};
          RandomSalt := salt |}.

(** [(p ProviderData) MarshalJSON]: the five coordinates as decimal
    strings.  A nil [R8] is dereferenced, which panics. *)
Definition MarshalJSON (p : ProviderData) : result string :=
  match babyjub.R8 (Signature p) with
  | None => Panic
  | Some r8 =>
      json_Marshal
        {| providerDataDTO.Ax := big.String (babyjub.X (PublicKey p));
           providerDataDTO.Bx := big.String (babyjub.Y (PublicKey p));
           providerDataDTO.S := big.String (babyjub.S (Signature p));
           providerDataDTO.R8x := big.String (babyjub.X r8);
           providerDataDTO.R8y := big.String (babyjub.Y r8) |}
  end.

(** The five assignments of [UnmarshalJSON], each followed by its check.
    [SetString] returns nil when it fails, and the assignment stores
    it before the method returns the error. *)
Definition setPublicKeyX (p : ProviderData) (x : option Z) : ProviderData :=
  {| PublicKey := {| babyjub.X := x; babyjub.Y := babyjub.Y (PublicKey p) |};
     Signature := Signature p |}.

Definition setPublicKeyY (p : ProviderData) (y : option Z) : ProviderData :=
  {| PublicKey := {| babyjub.X := babyjub.X (PublicKey p); babyjub.Y := y |};
     Signature := Signature p |}.

Definition setSignatureR8 (p : ProviderData) (r8 : option babyjub.Point)
  : ProviderData :=
  {| PublicKey := PublicKey p;
     Signature := {| babyjub.R8 := r8; babyjub.S := babyjub.S (Signature p) |} |}.

Definition setSignatureS (p : ProviderData) (s : option Z) : ProviderData :=
  {| PublicKey := PublicKey p;
     Signature := {| babyjub.R8 := babyjub.R8 (Signature p); babyjub.S := s |} |}.

(** [(p *ProviderData) UnmarshalJSON]: the receiver after the call and
    the returned error. *)
Definition UnmarshalJSON (p : ProviderData) (data : string)
  : ProviderData * result unit :=
  match json_Unmarshal data with
  | Ok dto =>
      let x := big.SetString10 (providerDataDTO.Ax dto) in
      let p := setPublicKeyX p x in
      if negb (bool_decide (is_Some x)) then
        (p, Err (errorString "invalid x coordinate of public key point"))
      else
      let y := big.SetString10 (providerDataDTO.Bx dto) in
      let p := setPublicKeyY p y in
      if negb (bool_decide (is_Some y)) then
        (p, Err (errorString "invalid y coordinate of public key point"))
      else
      let r8x := big.SetString10 (providerDataDTO.R8x dto) in
      if negb (bool_decide (is_Some r8x)) then
        (p, Err (errorString "invalid x coordinate of signature r8 point"))
      else
      let r8y := big.SetString10 (providerDataDTO.R8y dto) in
      if negb (bool_decide (is_Some r8y)) then
        (p, Err (errorString "invalid y coordinate of signature r8 point"))
      else
      let p := setSignatureR8 p (Some {| babyjub.X := r8x; babyjub.Y := r8y |}) in
      let s := big.SetString10 (providerDataDTO.S dto) in
      let p := setSignatureS p s in
      if negb (bool_decide (is_Some s)) then
        (p, Err (errorString "invalid s component of signature"))
      else (p, Ok tt)
  | Err e => (p, Err e)
  | Panic => (p, Panic)
  | OutOfFuel => (p, OutOfFuel)
  end.

End WithLibraries.

End zkcertificate.

(** ** Sample instances of the library parameters

    Small executable stand-ins for the libraries, used to run the embedding
    on concrete inputs. *)

Module Sample.

(** The order of the scalar field of BN254, the modulus Poseidon
    works in. *)
Definition Q : Z :=
  21888242871839275222246405745257275088548364400416034343698204186575808495617.

Definition inField (v : option Z) : bool :=
  match v with
  | Some z => (0 <=? z) && (z <? Q)
  | None => false
  end.

Definition mix (acc : Z) (v : option Z) : Z :=
  (acc * 7 + default 0 v + 1) mod Q.

(** A stand-in with the interface of [poseidon.Hash]: an error on an
    input outside the field or on a bad arity, a panic on a nil input,
    and an order-sensitive combination otherwise. *)
Definition Hash (inputs : list (option Z)) : result Z :=
  if bool_decide (inputs = []) || (16 <? length inputs)%nat then
    Err (errorString "invalid inputs length")
  else if negb (forallb (fun v => bool_decide (is_Some v)) inputs) then Panic
  else if negb (forallb inField inputs) then
    Err (errorString "inputs values not inside Finite Field")
  else Ok (fold_left mix inputs 0).

Definition node (v : Z) : merkle.TreeNode := {| merkle.Value := Some v |}.

(** The empty tree of depth 2 over leaves 5: its root is [Hash [5; 5] = 48]. *)
Definition tree2 : merkle.Tree :=
  {| merkle.Nodes := [node 48; node 5; node 5] |}.

(** The empty tree of depth 3 over leaves 5. *)
Definition tree3 : merkle.Tree :=
  {| merkle.Nodes := [node 392; node 48; node 48; node 5; node 5; node 5; node 5] |}.

(** A signature check that accepts exactly the signatures whose [S] is
    the message plus the key's first coordinate. *)
Definition Verify (pk : babyjub.PublicKey) (message : Z)
    (sig : babyjub.Signature) : result bool :=
  match babyjub.X pk, babyjub.S sig with
  | Some x, Some s => Ok (s =? message + x)
  | _, _ => Panic
  end.

(** A content that is already a field element, of a named standard. *)
Record Plain : Type := { plainValue : Z; plainStandard : string }.

#[global] Instance Plain_Content : zkcertificate.Content string Plain := {|
  zkcertificate.Content_Hash := fun c => Ok (plainValue c);
  zkcertificate.Content_Standard := plainStandard
|}.

(** A signer for [Verify]: the private key is the key's first coordinate. *)
Definition Sign (sk : Z) (message : Z) : babyjub.Signature :=
  {| babyjub.R8 := Some {| babyjub.X := Some 5; babyjub.Y := Some 6 |};
     babyjub.S := Some (message + sk) |}.

(** An encoder that yields the same text for every object. *)
Definition encodeAs (data : string) (dto : providerDataDTO.t) : result string :=
  Ok data.

(** The nodes that hold a field element. *)
Definition fieldNode (n : merkle.TreeNode) : Prop :=
  inField (merkle.Value n) = true.

(** A decoder that yields the given object for every text. *)
Definition decodeTo (dto : providerDataDTO.t) (data : string)
  : result providerDataDTO.t := Ok dto.

Definition key : babyjub.PublicKey := {| babyjub.X := Some 3; babyjub.Y := Some 4 |}.

Definition sig (s : Z) : babyjub.Signature :=
  {| babyjub.R8 := Some {| babyjub.X := Some 5; babyjub.Y := Some 6 |};
     babyjub.S := Some s |}.

Definition emptyProvider : zkcertificate.ProviderData :=
  {| zkcertificate.PublicKey := {| babyjub.X := None; babyjub.Y := None |};
     zkcertificate.Signature := {| babyjub.R8 := None; babyjub.S := None |} |}.

End Sample.

(** ** Notions of the specification *)

Module spec.

Import merkle.

(** A tree of depth [d]: a complete binary tree of [2^d - 1] nodes.  The
    depth is at most 62, so that the number of nodes and every index
    computed from it is an [int]. *)
Definition hasDepth (d : Z) (t : Tree) : Prop :=
  1 <= d <= 62 /\ Go.len (Nodes t) = 2 ^ d - 1.

(** The array index of leaf [i], as [SetLeaf] and [GetProof] compute it. *)
Definition leafNode (t : Tree) (i : Z) : Z :=
  Go.add (Go.sub (Go.len (Nodes t)) (GetLeavesAmount t)) i.

(** The node at level [k] of the leaf-to-root path that starts at array
    index [j]. *)
Definition pathNode (j : Z) (k : nat) : Z := Nat.iter k GetParentIndex j.

(** The paths of leaves [i] and [j] share no node below the root. *)
Definition disjointBelowRoot (t : Tree) (i j : Z) : Prop :=
  forall a b : nat,
    pathNode (leafNode t i) a = pathNode (leafNode t j) b ->
    pathNode (leafNode t i) a = 0.

(** Every node of the array belongs to the class [accepted]. *)
Definition allAccepted (accepted : TreeNode -> Prop) (nodes : list TreeNode) : Prop :=
  forall p n, Go.index nodes p = Ok n -> accepted n.

(** [i] is an internal node of an array of [n] nodes. *)
Definition internal (n i : Z) : Prop := 0 <= i /\ 2 * i + 2 < n.

Section WithHash.

Variable HashFunc : list (option Z) -> result Z.

(** Every internal node holds the hash of its two children. *)
Definition NodeInvariant (t : Tree) : Prop :=
  forall i, internal (Go.len (Nodes t)) i ->
    computeChildrenHash HashFunc i (Nodes t) = Go.index (Nodes t) i.

(** The trees the engine produces: an empty tree, then successful
    [SetLeaf] calls. *)
Inductive reachable (d : Z) : Tree -> Prop :=
| reach_new v t :
    NewEmptyTree HashFunc d v = Ok t -> reachable d t
| reach_set t i x t' :
    reachable d t -> SetLeaf HashFunc t i x = (t', Ok tt) -> reachable d t'.

(** [n] pairwise self-hashes of a value: [v], [H(v,v)],
    [H(H(v,v),H(v,v))], ... *)
Fixpoint hashSelf (n : nat) (v : TreeNode) : result TreeNode :=
  match n with
  | O => Ok v
  | S n' => let* u := hashSelf n' v in computeNodeHash HashFunc u u
  end.

(** Rebuilding a root from a leaf value, the siblings and the bitmask,
    as the code lays the bits out: at level [k] a set bit means that
    the current node is the left operand. *)
Fixpoint rebuildRoot (current : TreeNode) (siblings : list TreeNode)
    (indices : Z) (k : Z) : result TreeNode :=
  match siblings with
  | [] => Ok current
  | sibling :: rest =>
      let* parent :=
        (if Z.testbit indices k
         then computeNodeHash HashFunc current sibling
         else computeNodeHash HashFunc sibling current) in
      rebuildRoot parent rest indices (k + 1)
  end.

(** The same with the reading of the bits that the specification
    documents: a set bit means that the current node was a right child,
    so the sibling is the left operand. *)
Fixpoint rebuildRootDocumented (current : TreeNode) (siblings : list TreeNode)
    (indices : Z) (k : Z) : result TreeNode :=
  match siblings with
  | [] => Ok current
  | sibling :: rest =>
      let* parent :=
        (if Z.testbit indices k
         then computeNodeHash HashFunc sibling current
         else computeNodeHash HashFunc current sibling) in
      rebuildRootDocumented parent rest indices (k + 1)
  end.

End WithHash.

End spec.

(** * Properties *)

(** ** Arithmetic of [int] on the range of node indices *)

Section IntArithmetic.

Lemma wrap_small z : - 2 ^ 63 <= z < 2 ^ 63 -> Go.wrap z = z.
Proof.
  intros Hz. unfold Go.wrap.
  rewrite Z.mod_small by lia. lia.
Qed.

Lemma add_small x y : - 2 ^ 63 <= x + y < 2 ^ 63 -> Go.add x y = x + y.
Proof. apply wrap_small. Qed.

Lemma sub_small x y : - 2 ^ 63 <= x - y < 2 ^ 63 -> Go.sub x y = x - y.
Proof. apply wrap_small. Qed.

Lemma mul_small x y : - 2 ^ 63 <= x * y < 2 ^ 63 -> Go.mul x y = x * y.
Proof. apply wrap_small. Qed.

Lemma div2_small x : 0 <= x < 2 ^ 63 -> Go.div x 2 = x / 2.
Proof.
  intros Hx. unfold Go.div.
  rewrite Z.quot_div_nonneg by lia.
  apply wrap_small.
  pose proof (Z.div_pos x 2). pose proof (Z.div_le_upper_bound x 2 x). lia.
Qed.

Lemma rem2_small x : 0 <= x -> Go.rem x 2 = x mod 2.
Proof. intros Hx. unfold Go.rem. apply Z.rem_mod_nonneg; lia. Qed.

Lemma pow2_le_62 d : 0 <= d <= 62 -> 1 <= 2 ^ d <= 2 ^ 62.
Proof.
  intros Hd. split.
  - pose proof (Z.pow_pos_nonneg 2 d). lia.
  - apply Z.pow_le_mono_r; lia.
Qed.

Lemma pow2_succ d : 0 <= d -> 2 ^ (d + 1) = 2 * 2 ^ d.
Proof. intros Hd. rewrite Z.pow_add_r by lia. lia. Qed.

Lemma pow2_pred d : 1 <= d -> 2 ^ d = 2 * 2 ^ (d - 1).
Proof.
  intros Hd. replace d with (d - 1 + 1) at 1 by lia.
  apply pow2_succ. lia.
Qed.

Lemma shl1_small d : 0 <= d <= 62 -> Go.shl 1 d = Ok (2 ^ d).
Proof.
  intros Hd. unfold Go.shl.
  destruct (Z.ltb_spec d 0); [lia|].
  destruct (Z.leb_spec 64 d); [lia|].
  f_equal. rewrite Z.mul_1_l. apply wrap_small.
  pose proof (pow2_le_62 d Hd). lia.
Qed.

End IntArithmetic.

(** ** Slices *)

Section Slices.

Context {A : Type}.
Implicit Types (s : list A) (i j : Z) (v : A).

Lemma len_nonneg s : 0 <= Go.len s.
Proof. unfold Go.len. lia. Qed.

Lemma index_Ok s i v : Go.index s i = Ok v <-> 0 <= i /\ s !! Z.to_nat i = Some v.
Proof.
  unfold Go.index. destruct (Z.ltb_spec i 0).
  - split; [discriminate | lia].
  - destruct (s !! Z.to_nat i) eqn:E; split; intros H1;
      try discriminate; try (destruct H1; congruence); try (split; [lia|]; congruence).
Qed.

Lemma index_in_range s i : 0 <= i < Go.len s -> exists v, Go.index s i = Ok v.
Proof.
  intros Hi. unfold Go.len in Hi.
  destruct (lookup_lt_is_Some_2 s (Z.to_nat i)) as [v Hv]; [lia|].
  exists v. apply index_Ok. split; [lia | done].
Qed.

Lemma index_Ok_range s i v : Go.index s i = Ok v -> 0 <= i < Go.len s.
Proof.
  intros H. apply index_Ok in H as [Hi Hl].
  apply lookup_lt_Some in Hl. unfold Go.len. lia.
Qed.

Lemma index_not_fuel s i : Go.index s i <> OutOfFuel.
Proof.
  unfold Go.index. destruct (i <? 0); [discriminate|].
  destruct (s !! Z.to_nat i); discriminate.
Qed.

Lemma store_Ok s i v s' :
  Go.store s i v = Ok s' <-> 0 <= i < Go.len s /\ s' = <[Z.to_nat i := v]> s.
Proof.
  unfold Go.store, Go.len. destruct (Z.ltb_spec i 0).
  - split; [discriminate | lia].
  - destruct (Nat.ltb_spec (Z.to_nat i) (length s)); split; intros H1;
      try discriminate; try lia.
    + inversion H1. split; [lia | done].
    + destruct H1 as [_ ->]. done.
Qed.

Lemma store_in_range s i v :
  0 <= i < Go.len s -> Go.store s i v = Ok (<[Z.to_nat i := v]> s).
Proof. intros Hi. apply store_Ok. done. Qed.

Lemma len_insert s (n : nat) v : Go.len (<[n := v]> s) = Go.len s.
Proof. unfold Go.len. by rewrite length_insert. Qed.

Lemma index_insert_eq s i v :
  0 <= i < Go.len s -> Go.index (<[Z.to_nat i := v]> s) i = Ok v.
Proof.
  intros Hi. apply index_Ok. split; [lia|].
  apply list_lookup_insert_eq. unfold Go.len in Hi. lia.
Qed.

Lemma index_insert_ne s i j v :
  0 <= i -> 0 <= j -> i <> j ->
  Go.index (<[Z.to_nat i := v]> s) j = Go.index s j.
Proof.
  intros Hi Hj Hne. unfold Go.index.
  rewrite list_lookup_insert_ne; [done | lia].
Qed.

Lemma index_ext s s' :
  (forall i, 0 <= i -> Go.index s i = Go.index s' i) -> s = s'.
Proof.
  intros H. apply list_eq. intros n.
  specialize (H (Z.of_nat n) ltac:(lia)).
  unfold Go.index in H. destruct (Z.ltb_spec (Z.of_nat n) 0); [lia|].
  rewrite Nat2Z.id in H.
  destruct (s !! n), (s' !! n); congruence.
Qed.

End Slices.

(** ** Index arithmetic of the array-backed tree *)

Section TreeIndices.

Import merkle spec.

Lemma GetParentIndex_0 : GetParentIndex 0 = 0.
Proof. reflexivity. Qed.

Lemma GetParentIndex_pos j :
  1 <= j < 2 ^ 62 -> GetParentIndex j = (j - 1) / 2.
Proof.
  intros Hj. unfold GetParentIndex.
  rewrite sub_small by lia. apply div2_small. lia.
Qed.

Lemma GetParentIndex_lt j :
  1 <= j < 2 ^ 62 -> 0 <= GetParentIndex j < j.
Proof.
  intros Hj. rewrite GetParentIndex_pos by done.
  pose proof (Z.div_pos (j - 1) 2).
  pose proof (Z.div_le_upper_bound (j - 1) 2 (j - 1)). lia.
Qed.

(** A positive index is one of the two children of its parent. *)
Lemma child_of_parent j :
  1 <= j < 2 ^ 62 ->
  j = 2 * GetParentIndex j + 1 \/ j = 2 * GetParentIndex j + 2.
Proof.
  intros Hj. rewrite GetParentIndex_pos by done.
  pose proof (Z.div_mod (j - 1) 2 ltac:(lia)).
  pose proof (Z.mod_pos_bound (j - 1) 2 ltac:(lia)). lia.
Qed.

Lemma parent_of_left i :
  0 <= i -> 2 * i + 1 < 2 ^ 62 -> GetParentIndex (2 * i + 1) = i.
Proof.
  intros Hi Hb. rewrite GetParentIndex_pos by lia.
  replace (2 * i + 1 - 1) with (i * 2) by lia. apply Z.div_mul. lia.
Qed.

Lemma parent_of_right i :
  0 <= i -> 2 * i + 2 < 2 ^ 62 -> GetParentIndex (2 * i + 2) = i.
Proof.
  intros Hi Hb. rewrite GetParentIndex_pos by lia.
  replace (2 * i + 2 - 1) with (1 + i * 2) by lia.
  rewrite Z.div_add by lia. reflexivity.
Qed.

Lemma left_child_small i : 0 <= i < 2 ^ 61 -> Go.add (Go.mul i 2) 1 = 2 * i + 1.
Proof. intros Hi. rewrite mul_small by lia. rewrite add_small by lia. lia. Qed.

Lemma right_child_small i : 0 <= i < 2 ^ 61 -> Go.add (Go.mul i 2) 2 = 2 * i + 2.
Proof. intros Hi. rewrite mul_small by lia. rewrite add_small by lia. lia. Qed.

Lemma getChildrenOf_Ok i nodes l r :
  0 <= i < 2 ^ 61 ->
  getChildrenOf i nodes = Ok (l, r) <->
  Go.index nodes (2 * i + 1) = Ok l /\ Go.index nodes (2 * i + 2) = Ok r.
Proof.
  intros Hi. unfold getChildrenOf.
  rewrite left_child_small, right_child_small by done.
  destruct (Go.index nodes (2 * i + 1)), (Go.index nodes (2 * i + 2)); simpl;
    split; intros H; try discriminate; try (destruct H; discriminate).
  - inversion H. done.
  - destruct H as [H1 H2]. inversion H1. inversion H2. done.
Qed.

Lemma IsRightChild_even j : 0 <= j -> IsRightChild j = Z.even j.
Proof.
  intros Hj. unfold IsRightChild. rewrite rem2_small by done.
  rewrite Zmod_even. destruct (Z.even j); reflexivity.
Qed.

Lemma GetSiblingIndex_small j :
  1 <= j < 2 ^ 62 ->
  GetSiblingIndex j = if Z.even j then j - 1 else j + 1.
Proof.
  intros Hj. unfold GetSiblingIndex. rewrite IsRightChild_even by lia.
  destruct (Z.even j); [apply sub_small | apply add_small]; lia.
Qed.

(** The sibling is the other child of the same parent. *)
Lemma sibling_of_child j :
  1 <= j < 2 ^ 62 ->
  (j = 2 * GetParentIndex j + 1 /\ GetSiblingIndex j = 2 * GetParentIndex j + 2
                                /\ Z.odd j = true) \/
  (j = 2 * GetParentIndex j + 2 /\ GetSiblingIndex j = 2 * GetParentIndex j + 1
                                /\ Z.odd j = false).
Proof.
  intros Hj. rewrite GetSiblingIndex_small by done.
  pose proof (child_of_parent j Hj) as H.
  remember (GetParentIndex j) as p eqn:Hp. clear Hp.
  rewrite <- Z.negb_even.
  destruct H as [-> | ->]; [left | right].
  - replace (2 * p + 1) with (1 + 2 * p) by lia.
    rewrite Z.even_add_mul_2. simpl. lia.
  - replace (2 * p + 2) with (0 + 2 * (p + 1)) by lia.
    rewrite Z.even_add_mul_2. simpl. lia.
Qed.

Lemma GetLeavesAmount_small t :
  Go.len (Nodes t) < 2 ^ 62 -> GetLeavesAmount t = (Go.len (Nodes t) + 1) / 2.
Proof.
  intros Hn. pose proof (len_nonneg (Nodes t)). unfold GetLeavesAmount.
  rewrite add_small by lia. apply div2_small. lia.
Qed.

Lemma hasDepth_leaves d t :
  hasDepth d t -> GetLeavesAmount t = 2 ^ (d - 1).
Proof.
  intros [Hd Hn]. pose proof (pow2_le_62 d ltac:(lia)).
  rewrite GetLeavesAmount_small by lia.
  rewrite Hn, (pow2_pred d) by lia.
  replace (2 * 2 ^ (d - 1) - 1 + 1) with (2 ^ (d - 1) * 2) by lia.
  apply Z.div_mul. lia.
Qed.

Lemma hasDepth_leafNode d t i :
  hasDepth d t -> 0 <= i < 2 ^ (d - 1) -> leafNode t i = 2 ^ (d - 1) - 1 + i.
Proof.
  intros Ht Hi. unfold leafNode. rewrite (hasDepth_leaves d) by done.
  destruct Ht as [Hd Hn]. pose proof (pow2_le_62 d ltac:(lia)).
  pose proof (pow2_pred d ltac:(lia)).
  rewrite Hn, sub_small by lia. rewrite add_small by lia. lia.
Qed.

(** *** Leaf-to-root paths *)

Lemma pathNode_succ j k : pathNode j (S k) = pathNode (GetParentIndex j) k.
Proof. unfold pathNode. apply Nat.iter_succ_r. Qed.

Lemma pathNode_range j k : 0 <= j < 2 ^ 62 -> 0 <= pathNode j k <= j.
Proof.
  revert j. induction k as [|k IH]; intros j Hj.
  - simpl. lia.
  - rewrite pathNode_succ.
    destruct (Z.eq_dec j 0) as [-> | Hne].
    + rewrite GetParentIndex_0. apply IH. lia.
    + pose proof (GetParentIndex_lt j ltac:(lia)).
      specialize (IH (GetParentIndex j) ltac:(lia)). lia.
Qed.

Lemma pathNode_zero k : pathNode 0 k = 0.
Proof. pose proof (pathNode_range 0 k). lia. Qed.

(** A proper ancestor is strictly above. *)
Lemma pathNode_lt j k : 1 <= j < 2 ^ 62 -> pathNode j (S k) < j.
Proof.
  intros Hj. rewrite pathNode_succ.
  pose proof (GetParentIndex_lt j Hj).
  pose proof (pathNode_range (GetParentIndex j) k ltac:(lia)). lia.
Qed.

(** The parent of a node on the path is the next node on the path. *)
Lemma pathNode_parent j k : GetParentIndex (pathNode j k) = pathNode j (S k).
Proof. reflexivity. Qed.

(** A node whose index lies in [[2^h - 1, 2^(h+1) - 2]] is [h] levels
    below the root: its path climbs one level at a time. *)
Lemma pathNode_level (h : nat) j (k : nat) :
  (h <= 61)%nat -> (k <= h)%nat ->
  2 ^ Z.of_nat h <= j + 1 < 2 ^ (Z.of_nat h + 1) ->
  2 ^ Z.of_nat (h - k) <= pathNode j k + 1 < 2 ^ (Z.of_nat (h - k) + 1).
Proof.
  revert h j. induction k as [|k IH]; intros h j Hh Hk Hj.
  - simpl. rewrite Nat.sub_0_r. done.
  - destruct h as [|h]; [lia|].
    rewrite pathNode_succ.
    replace (S h - S k)%nat with (h - k)%nat by lia.
    apply IH; [lia | lia |].
    assert (Hp : 2 ^ Z.of_nat (S h) = 2 * 2 ^ Z.of_nat h).
    { rewrite Nat2Z.inj_succ, <- Z.add_1_r. apply pow2_succ. lia. }
    assert (Hp' : 2 ^ (Z.of_nat (S h) + 1) = 2 * 2 ^ (Z.of_nat h + 1)).
    { rewrite Nat2Z.inj_succ, <- Z.add_1_r. apply pow2_succ. lia. }
    pose proof (pow2_le_62 (Z.of_nat h) ltac:(lia)).
    pose proof (pow2_le_62 (Z.of_nat h + 1) ltac:(lia)).
    assert (Hj1 : 1 <= j < 2 ^ 62).
    { split; [lia|]. pose proof (pow2_le_62 (Z.of_nat (S h) + 1) ltac:(lia)). lia. }
    destruct (child_of_parent j Hj1); lia.
Qed.

Lemma pathNode_top (h : nat) j :
  (h <= 61)%nat -> 2 ^ Z.of_nat h <= j + 1 < 2 ^ (Z.of_nat h + 1) ->
  pathNode j h = 0.
Proof.
  intros Hh Hj. pose proof (pathNode_level h j h Hh ltac:(lia) Hj) as H.
  rewrite Nat.sub_diag in H. simpl in H. lia.
Qed.

Lemma pathNode_positive (h : nat) j (k : nat) :
  (h <= 61)%nat -> (k < h)%nat ->
  2 ^ Z.of_nat h <= j + 1 < 2 ^ (Z.of_nat h + 1) ->
  1 <= pathNode j k.
Proof.
  intros Hh Hk Hj. pose proof (pathNode_level h j k Hh ltac:(lia) Hj) as H.
  pose proof (pow2_pred (Z.of_nat (h - k)) ltac:(lia)).
  pose proof (pow2_le_62 (Z.of_nat (h - k) - 1) ltac:(lia)). lia.
Qed.

End TreeIndices.

(** ** The ancestor walk of [SetLeaf] *)

Section SetLeafWalk.

Import merkle spec.

Variable HashFunc : list (option Z) -> result Z.

(** The hash of the children of [i] reads only the two child slots. *)
Lemma computeChildrenHash_ext i nodes nodes' :
  0 <= i < 2 ^ 61 ->
  Go.index nodes (2 * i + 1) = Go.index nodes' (2 * i + 1) ->
  Go.index nodes (2 * i + 2) = Go.index nodes' (2 * i + 2) ->
  computeChildrenHash HashFunc i nodes = computeChildrenHash HashFunc i nodes'.
Proof.
  intros Hi Hl Hr. unfold computeChildrenHash, getChildrenOf.
  rewrite left_child_small, right_child_small by done.
  rewrite Hl, Hr. reflexivity.
Qed.

Lemma computeChildrenHash_Ok_range i nodes h :
  0 <= i < 2 ^ 61 ->
  computeChildrenHash HashFunc i nodes = Ok h -> 2 * i + 2 < Go.len nodes.
Proof.
  intros Hi H. unfold computeChildrenHash in H.
  destruct (getChildrenOf i nodes) as [[l r] | | |] eqn:E; try discriminate.
  apply getChildrenOf_Ok in E as [_ Hr]; [|done].
  apply index_Ok_range in Hr. lia.
Qed.

Lemma storeChildrenHash_frame j nodes nodes' r :
  0 <= j ->
  storeChildrenHash HashFunc j nodes = (nodes', r) ->
  Go.len nodes' = Go.len nodes /\
  forall p, 0 <= p -> p <> j -> Go.index nodes' p = Go.index nodes p.
Proof.
  intros Hj H. unfold storeChildrenHash in H.
  destruct (computeChildrenHash HashFunc j nodes) as [h | e | |].
  - destruct (Go.store nodes j h) as [s | | |] eqn:E; inversion H; subst; try done.
    apply store_Ok in E as [Hr ->]. split; [apply len_insert|].
    intros p Hp Hne. apply index_insert_ne; lia.
  - destruct (Go.store nodes j zeroNode) as [s | | |] eqn:E; inversion H; subst; try done.
    apply store_Ok in E as [Hr ->]. split; [apply len_insert|].
    intros p Hp Hne. apply index_insert_ne; lia.
  - inversion H; subst. done.
  - inversion H; subst. done.
Qed.

Lemma storeChildrenHash_Ok j nodes nodes' :
  0 <= j < 2 ^ 61 ->
  storeChildrenHash HashFunc j nodes = (nodes', Ok tt) ->
  2 * j + 2 < Go.len nodes /\
  computeChildrenHash HashFunc j nodes' = Go.index nodes' j.
Proof.
  intros Hj H. pose proof H as Hf.
  apply storeChildrenHash_frame in Hf as [Hlen Hf]; [|lia].
  unfold storeChildrenHash in H.
  destruct (computeChildrenHash HashFunc j nodes) as [h | e | |] eqn:Eh.
  - destruct (Go.store nodes j h) as [s | | |] eqn:E; inversion H; subst.
    apply store_Ok in E as [Hr ->].
    split; [by apply (computeChildrenHash_Ok_range j nodes h)|].
    rewrite index_insert_eq by done. rewrite <- Eh.
    apply computeChildrenHash_ext; [done | |]; apply index_insert_ne; lia.
  - destruct (Go.store nodes j zeroNode); inversion H.
  - inversion H.
  - inversion H.
Qed.

Lemma recomputeAncestors_frame fuel j nodes nodes' r :
  0 <= j < 2 ^ 61 ->
  recomputeAncestors HashFunc fuel j nodes = (nodes', r) ->
  Go.len nodes' = Go.len nodes /\
  forall p, 0 <= p -> (forall k, pathNode j k <> p) ->
            Go.index nodes' p = Go.index nodes p.
Proof.
  revert j nodes. induction fuel as [|fuel IH]; intros j nodes Hj H; simpl in H.
  - destruct (j >? 0); inversion H; subst; done.
  - destruct (Z.gtb_spec j 0) as [Hpos|]; [|inversion H; subst; done].
    destruct (storeChildrenHash HashFunc j nodes) as [nodes1 r1] eqn:E.
    apply storeChildrenHash_frame in E as [Hlen1 Hf1]; [|lia].
    assert (Hstop : (nodes', r) = (nodes1, r1) ->
              Go.len nodes' = Go.len nodes /\
              forall p, 0 <= p -> (forall k, pathNode j k <> p) ->
                        Go.index nodes' p = Go.index nodes p).
    { intros Heq. inversion Heq; subst. split; [done|].
      intros p Hp Hk. apply Hf1; [done|]. specialize (Hk 0%nat). simpl in Hk. lia. }
    destruct r1 as [[] | e | |]; try (apply Hstop; congruence).
    pose proof (GetParentIndex_lt j ltac:(lia)) as Hpar.
    apply IH in H as [Hlen Hf]; [|lia].
    split; [lia|]. intros p Hp Hk.
    rewrite Hf; [| done |].
    + apply Hf1; [done|]. specialize (Hk 0%nat). simpl in Hk. lia.
    + intros k. rewrite <- pathNode_succ. apply Hk.
Qed.

Lemma recomputeAncestors_hashes fuel j nodes nodes' :
  0 <= j < 2 ^ 61 ->
  recomputeAncestors HashFunc fuel j nodes = (nodes', Ok tt) ->
  forall k, 1 <= pathNode j k ->
    computeChildrenHash HashFunc (pathNode j k) nodes'
    = Go.index nodes' (pathNode j k).
Proof.
  revert j nodes. induction fuel as [|fuel IH]; intros j nodes Hj H k Hk; simpl in H.
  - destruct (Z.gtb_spec j 0); [inversion H|].
    assert (j = 0) as -> by lia. rewrite pathNode_zero in Hk. lia.
  - destruct (Z.gtb_spec j 0) as [Hpos|].
    2:{ assert (j = 0) as -> by lia. rewrite pathNode_zero in Hk. lia. }
    destruct (storeChildrenHash HashFunc j nodes) as [nodes1 r1] eqn:E.
    destruct r1 as [[] | e | |]; try (inversion H; fail).
    pose proof (GetParentIndex_lt j ltac:(lia)) as Hpar.
    pose proof H as Hrest.
    apply recomputeAncestors_frame in Hrest as [Hlen Hf]; [|lia].
    destruct k as [|k].
    + simpl. apply storeChildrenHash_Ok in E as [Hr E]; [|lia].
      assert (Hoff : forall p, j <= p -> forall k, pathNode (GetParentIndex j) k <> p).
      { intros p Hp k. pose proof (pathNode_range (GetParentIndex j) k ltac:(lia)). lia. }
      rewrite (Hf j) by (try apply Hoff; lia). rewrite <- E.
      apply computeChildrenHash_ext; [lia | |]; apply Hf; try apply Hoff; lia.
    + rewrite pathNode_succ in *. eapply IH; [| exact H | exact Hk]. lia.
Qed.

(** Every path reaches the root. *)
Lemma pathNode_descends j k :
  0 <= j < 2 ^ 62 -> pathNode j k <= Z.max 0 (j - Z.of_nat k).
Proof.
  intros Hj. induction k as [|k IH]; [simpl; lia|].
  pose proof (pathNode_range j k Hj) as Hr.
  change (pathNode j (S k)) with (GetParentIndex (pathNode j k)).
  destruct (Z.eq_dec (pathNode j k) 0) as [-> | Hne].
  - rewrite GetParentIndex_0. lia.
  - pose proof (GetParentIndex_lt (pathNode j k) ltac:(lia)). lia.
Qed.

Lemma pathNode_reaches_root j :
  0 <= j < 2 ^ 62 -> pathNode j (Z.to_nat j) = 0.
Proof.
  intros Hj. pose proof (pathNode_descends j (Z.to_nat j) Hj).
  pose proof (pathNode_range j (Z.to_nat j) Hj). lia.
Qed.

Lemma parent_small j : 0 <= j < 2 ^ 62 -> 0 <= GetParentIndex j < 2 ^ 61.
Proof.
  intros Hj. destruct (Z.eq_dec j 0) as [-> | Hne].
  - rewrite GetParentIndex_0. lia.
  - rewrite GetParentIndex_pos by lia.
    pose proof (Z.div_pos (j - 1) 2).
    pose proof (Z.div_lt_upper_bound (j - 1) 2 (2 ^ 61)). lia.
Qed.

(** [SetLeaf] writes only on the path of the leaf, whatever its outcome. *)
Lemma SetLeaf_frame t i x t' r :
  Go.len (Nodes t) < 2 ^ 62 ->
  SetLeaf HashFunc t i x = (t', r) ->
  Go.len (Nodes t') = Go.len (Nodes t) /\
  forall p, 0 <= p -> (forall k, pathNode (leafNode t i) k <> p) ->
            Go.index (Nodes t') p = Go.index (Nodes t) p.
Proof.
  intros Hlen H. unfold SetLeaf in H. fold (leafNode t i) in H.
  destruct ((i >=? GetLeavesAmount t) || (i <? 0)); [by inversion H; subst|].
  set (j := leafNode t i) in *.
  destruct (Go.store (Nodes t) j x) as [nodes1 | | |] eqn:Es;
    try (inversion H; subst; done).
  apply store_Ok in Es as [Hj ->].
  pose proof (parent_small j ltac:(lia)) as Hpar.
  destruct (recomputeAncestors HashFunc (Z.to_nat j) (GetParentIndex j)
              (<[Z.to_nat j := x]> (Nodes t))) as [nodes2 r2] eqn:Ew.
  apply recomputeAncestors_frame in Ew as [Hlen2 Hf2]; [|done].
  rewrite len_insert in Hlen2.
  assert (Hwalk : forall p, 0 <= p -> (forall k, pathNode j k <> p) ->
                            Go.index nodes2 p = Go.index (Nodes t) p).
  { intros p Hp Hk. rewrite Hf2; [| done |].
    - apply index_insert_ne; [lia | done |]. specialize (Hk 0%nat). simpl in Hk. lia.
    - intros k. rewrite <- pathNode_succ. apply Hk. }
  destruct r2 as [[] | e | |]; try (inversion H; subst; simpl; done).
  destruct (storeChildrenHash HashFunc 0 nodes2) as [nodes3 r3] eqn:Er.
  inversion H; subst; cbn [Nodes].
  apply storeChildrenHash_frame in Er as [Hlen3 Hf3]; [|lia].
  split; [lia|]. intros p Hp Hk.
  rewrite Hf3; [by apply Hwalk | done |].
  specialize (Hk (Z.to_nat j)). rewrite pathNode_reaches_root in Hk by lia. lia.
Qed.

(** What a successful [SetLeaf] leaves behind: the leaf holds the new
    value and every proper ancestor, the root included, holds the hash of
    its children. *)
Lemma SetLeaf_Ok_spec t i x t' :
  Go.len (Nodes t) < 2 ^ 62 ->
  SetLeaf HashFunc t i x = (t', Ok tt) ->
  0 <= i < GetLeavesAmount t /\
  1 <= leafNode t i < Go.len (Nodes t) /\
  Go.index (Nodes t') (leafNode t i) = Ok x /\
  forall k, computeChildrenHash HashFunc (pathNode (leafNode t i) (S k)) (Nodes t')
            = Go.index (Nodes t') (pathNode (leafNode t i) (S k)).
Proof.
  intros Hlen H. unfold SetLeaf in H. fold (leafNode t i) in H.
  destruct (Z.geb_spec i (GetLeavesAmount t)); [inversion H|].
  destruct (Z.ltb_spec i 0); [inversion H|]. simpl in H.
  set (j := leafNode t i) in *.
  destruct (Go.store (Nodes t) j x) as [nodes1 | | |] eqn:Es; try (inversion H; fail).
  apply store_Ok in Es as [Hj ->].
  pose proof (parent_small j ltac:(lia)) as Hpar.
  destruct (recomputeAncestors HashFunc (Z.to_nat j) (GetParentIndex j)
              (<[Z.to_nat j := x]> (Nodes t))) as [nodes2 r2] eqn:Ew.
  destruct r2 as [[] | e | |]; try (inversion H; fail).
  destruct (storeChildrenHash HashFunc 0 nodes2) as [nodes3 r3] eqn:Er.
  inversion H; subst; cbn [Nodes]. clear H.
  pose proof Ew as Hf2. apply recomputeAncestors_frame in Hf2 as [Hlen2 Hf2]; [|done].
  rewrite len_insert in Hlen2.
  pose proof Er as Hf3. apply storeChildrenHash_frame in Hf3 as [Hlen3 Hf3]; [|lia].
  apply storeChildrenHash_Ok in Er as [Hroot Er]; [|lia].
  assert (Hj1 : 1 <= j).
  { destruct (Z.eq_dec j 0) as [Hz|]; [|lia]. exfalso.
    unfold j, leafNode in Hz. rewrite GetLeavesAmount_small in * by done.
    pose proof (len_nonneg (Nodes t)).
    pose proof (Z.div_le_upper_bound (Go.len (Nodes t) + 1) 2 (Go.len (Nodes t) - 1)).
    rewrite sub_small in Hz.
    - rewrite add_small in Hz; lia.
    - pose proof (Z.div_pos (Go.len (Nodes t) + 1) 2). lia. }
  split; [lia|]. split; [lia|]. split.
  - rewrite Hf3 by lia. rewrite Hf2; [by apply index_insert_eq | lia |].
    intros k. pose proof (pathNode_lt j k ltac:(lia)) as Hk.
    rewrite pathNode_succ in Hk. lia.
  - intros k. rewrite pathNode_succ.
    pose proof (pathNode_range (GetParentIndex j) k ltac:(lia)) as Hr.
    destruct (Z.eq_dec (pathNode (GetParentIndex j) k) 0) as [-> | Hne]; [done|].
    rewrite (Hf3 (pathNode (GetParentIndex j) k)) by lia.
    erewrite <- recomputeAncestors_hashes; [| | exact Ew |]; [| done | lia].
    apply computeChildrenHash_ext; [lia | |]; apply Hf3; lia.
Qed.

End SetLeafWalk.

(** ** The sibling walk of [GetProof] *)

Section GetProofWalk.

Import merkle spec.

(** The bit that one iteration contributes: [j % 2 << level]. *)
Lemma parity_shift_bit j level b :
  0 <= j -> 0 <= level -> 0 <= b ->
  Z.testbit (j mod 2 * 2 ^ level) b = (b =? level) && Z.odd j.
Proof.
  intros Hj Hl Hb. rewrite Z.mul_pow2_bits by done.
  rewrite Zmod_odd. destruct (Z.eqb_spec b level) as [-> | Hne].
  - rewrite Z.sub_diag. destruct (Z.odd j); reflexivity.
  - destruct (Z.odd j); simpl.
    + destruct (Z.lt_ge_cases (b - level) 0) as [Hneg | Hpos].
      * by apply Z.testbit_neg_r.
      * change 1 with (2 ^ 0). rewrite Z.pow2_bits_eqb by lia.
        apply Z.eqb_neq. lia.
    + apply Z.testbit_0_l.
Qed.

Lemma parity_shift_small j level :
  0 <= j -> 0 <= level <= 62 ->
  Go.shl (Go.rem j 2) level = Ok (j mod 2 * 2 ^ level).
Proof.
  intros Hj Hl. unfold Go.shl. rewrite rem2_small by done.
  destruct (Z.ltb_spec level 0); [lia|].
  destruct (Z.leb_spec 64 level); [lia|].
  f_equal. apply wrap_small.
  pose proof (Z.mod_pos_bound j 2 ltac:(lia)).
  pose proof (pow2_le_62 level ltac:(lia)). nia.
Qed.

Lemma collectSiblings_spec nodes (h : nat) :
  Z.odd (Go.len nodes) = true -> Go.len nodes < 2 ^ 62 ->
  forall fuel j level proof,
    (h <= 61)%nat ->
    2 ^ Z.of_nat h <= j + 1 < 2 ^ (Z.of_nat h + 1) ->
    j < Go.len nodes -> (Z.to_nat j <= fuel)%nat ->
    0 <= level -> level + Z.of_nat h <= Go.len (Path proof) ->
    level + Z.of_nat h <= 62 ->
    exists proof',
      collectSiblings fuel nodes j level proof = Ok proof' /\
      Go.len (Path proof') = Go.len (Path proof) /\
      (forall m, (m < h)%nat ->
         Go.index (Path proof') (level + Z.of_nat m)
         = Go.index nodes (GetSiblingIndex (pathNode j m))) /\
      (forall q, 0 <= q -> q < level \/ level + Z.of_nat h <= q ->
         Go.index (Path proof') q = Go.index (Path proof) q) /\
      (forall b, 0 <= b ->
         Z.testbit (Indices proof') b
         = Z.testbit (Indices proof) b
           || ((level <=? b) && (b <? level + Z.of_nat h)
               && Z.odd (pathNode j (Z.to_nat (b - level))))).
Proof.
  intros Hodd Hlen. induction h as [|h IH];
    intros fuel j level proof Hh Hj Hjn Hfuel Hlevel Hpath H62.
  - assert (j = 0) as -> by (simpl in Hj; lia).
    exists proof. split; [destruct fuel; reflexivity|].
    split; [done|]. split; [intros m Hm; lia|]. split; [done|].
    intros b Hb. destruct (Z.leb_spec level b), (Z.ltb_spec b (level + Z.of_nat 0));
      simpl; try lia; by rewrite orb_false_r.
  - assert (Hp : 2 ^ Z.of_nat (S h) = 2 * 2 ^ Z.of_nat h).
    { rewrite Nat2Z.inj_succ, <- Z.add_1_r. apply pow2_succ. lia. }
    pose proof (pow2_le_62 (Z.of_nat h) ltac:(lia)) as Hph.
    assert (Hj1 : 1 <= j < 2 ^ 62) by lia.
    destruct fuel as [|fuel]; [lia|]. simpl.
    destruct (Z.gtb_spec j 0); [|lia].
    rewrite parity_shift_small by lia. simpl.
    (* the sibling exists *)
    pose proof (GetParentIndex_lt j Hj1) as Hpar.
    apply Z.odd_spec in Hodd as [half Hhalf].
    assert (Hsib : 0 <= GetSiblingIndex j < Go.len nodes).
    { destruct (sibling_of_child j Hj1) as [(Hc & -> & _) | (Hc & -> & _)]; lia. }
    destruct (index_in_range nodes _ Hsib) as [sibling Esib]. rewrite Esib. simpl.
    rewrite store_in_range by lia. simpl.
    (* the rest of the walk *)
    pose proof (pathNode_level (S h) j 1 Hh ltac:(lia) Hj) as Hlevel1.
    change (pathNode j 1) with (GetParentIndex j) in Hlevel1.
    replace (S h - 1)%nat with h in Hlevel1 by lia.
    rewrite add_small by lia.
    edestruct (IH fuel (GetParentIndex j) (level + 1)
                 {| Path := <[Z.to_nat level := sibling]> (Path proof);
                    Indices := Z.lor (Indices proof) (j mod 2 * 2 ^ level) |})
      as (proof' & Erun & Hlen' & Hsibs & Hother & Hbits);
      try (cbn [Path]; rewrite ?len_insert); try lia.
    exists proof'. cbn [Path Indices] in *. rewrite len_insert in Hlen'.
    split; [done|]. split; [done|]. split; [|split].
    + intros [|m] Hm.
      * rewrite Z.add_0_r. simpl. rewrite Hother by lia.
        rewrite index_insert_eq by lia. done.
      * rewrite pathNode_succ, <- Hsibs by lia. f_equal. lia.
    + intros q Hq Hrange. rewrite Hother by lia.
      apply index_insert_ne; lia.
    + intros b Hb. rewrite Hbits by done.
      rewrite Z.lor_spec, parity_shift_bit by lia.
      destruct (Z.eqb_spec b level) as [-> | Hne].
      * rewrite Z.sub_diag. simpl.
        destruct (Z.leb_spec (level + 1) level); [lia|].
        destruct (Z.leb_spec level level); [|lia].
        destruct (Z.ltb_spec level (level + Z.of_nat (S h))); [|lia].
        simpl. by rewrite orb_false_r.
      * simpl. rewrite orb_false_r. f_equal.
        destruct (Z.leb_spec (level + 1) b), (Z.leb_spec level b),
          (Z.ltb_spec b (level + 1 + Z.of_nat h)), (Z.ltb_spec b (level + Z.of_nat (S h)));
          simpl; try lia; try done.
        replace (Z.to_nat (b - level)) with (S (Z.to_nat (b - (level + 1)))) by lia.
        by rewrite pathNode_succ.
Qed.

End GetProofWalk.

(** ** [GetProof] on a tree of depth [d] *)

Section GetProofSpec.

Import merkle spec.

Lemma hasDepth_odd d t : hasDepth d t -> Z.odd (Go.len (Nodes t)) = true.
Proof.
  intros [Hd Hn]. rewrite Hn, (pow2_pred d) by lia.
  replace (2 * 2 ^ (d - 1) - 1) with (1 + 2 * (2 ^ (d - 1) - 1)) by lia.
  by rewrite Z.odd_add_mul_2.
Qed.

Lemma hasDepth_small d t : hasDepth d t -> 1 <= Go.len (Nodes t) < 2 ^ 62.
Proof.
  intros [Hd Hn]. pose proof (pow2_le_62 d ltac:(lia)).
  pose proof (pow2_pred d ltac:(lia)).
  pose proof (pow2_le_62 (d - 1) ltac:(lia)). lia.
Qed.

(** A leaf of a tree of depth [d] is [d - 1] levels below the root. *)
Lemma leafNode_level d t i :
  hasDepth d t -> 0 <= i < 2 ^ (d - 1) ->
  2 ^ Z.of_nat (Z.to_nat (d - 1)) <= leafNode t i + 1
    < 2 ^ (Z.of_nat (Z.to_nat (d - 1)) + 1) /\
  leafNode t i < Go.len (Nodes t).
Proof.
  intros Ht Hi. rewrite (hasDepth_leafNode d) by done.
  destruct Ht as [Hd Hn]. rewrite Z2Nat.id by lia.
  replace (d - 1 + 1) with d by lia.
  pose proof (pow2_pred d ltac:(lia)). lia.
Qed.

Lemma GetProof_spec d t i :
  hasDepth d t -> 0 <= i < 2 ^ (d - 1) ->
  exists proof,
    GetProof t i = Ok proof /\
    Go.len (Path proof) = d /\
    (forall k : nat, Z.of_nat k < d - 1 ->
       Go.index (Path proof) (Z.of_nat k)
       = Go.index (Nodes t) (GetSiblingIndex (pathNode (leafNode t i) k))) /\
    Go.index (Path proof) (d - 1) = Root t /\
    (forall b, 0 <= b ->
       Z.testbit (Indices proof) b = Z.odd (pathNode (leafNode t i) (Z.to_nat b))).
Proof.
  intros Ht Hi.
  pose proof (hasDepth_odd d t Ht) as Hodd.
  pose proof (hasDepth_small d t Ht) as Hsmall.
  pose proof (leafNode_level d t i Ht Hi) as [Hlevel Hin].
  pose proof Ht as [Hd Hn].
  unfold GetProof. fold (leafNode t i). rewrite (hasDepth_leaves d) by done.
  destruct (Z.geb_spec i (2 ^ (d - 1))); [lia|].
  destruct (Z.ltb_spec i 0); [lia|]. simpl.
  rewrite add_small by lia.
  replace (Go.len (Nodes t) + 1) with (2 ^ d) by lia.
  unfold Go.Log2. rewrite Z.log2_pow2 by lia.
  unfold Go.make, Go.maxAlloc, sizeofTreeNode.
  destruct (Z.ltb_spec d 0); [lia|].
  destruct (Z.ltb_spec (2 ^ 48) (d * 8)); [lia|]. simpl.
  set (path0 := replicate (Z.to_nat d) zeroNode).
  assert (Hlen0 : Go.len path0 = d).
  { unfold Go.len, path0. rewrite length_replicate. lia. }
  destruct (collectSiblings_spec (Nodes t) (Z.to_nat (d - 1)) Hodd ltac:(lia)
              (Z.to_nat (leafNode t i)) (leafNode t i) 0
              {| Path := path0; Indices := 0 |})
    as (proof & Erun & Hlen' & Hsibs & Hother & Hbits);
    try (cbn [Path]; lia).
  cbn [Path Indices] in *. rewrite Erun. simpl.
  destruct (index_in_range (Nodes t) 0 ltac:(lia)) as [root Eroot].
  unfold Root. rewrite Eroot. simpl.
  rewrite sub_small by lia. rewrite store_in_range by lia. simpl.
  eexists. split; [reflexivity|]. cbn [Path Indices].
  rewrite len_insert. split; [lia|]. split; [|split].
  - intros k Hk. rewrite index_insert_ne by lia.
    rewrite <- Hsibs by lia. f_equal.
  - rewrite Hlen'. replace (d - 1) with (Go.len path0 - 1) at 1 by lia.
    apply index_insert_eq. lia.
  - intros b Hb. rewrite Hbits by done. rewrite Z.testbit_0_l. simpl.
    rewrite Z.sub_0_r.
    destruct (Z.leb_spec 0 b); [|lia]. simpl.
    rewrite Z.add_0_l.
    destruct (Z.ltb_spec b (Z.of_nat (Z.to_nat (d - 1)))); simpl; [done|].
    replace (Z.to_nat b)
      with (Z.to_nat (d - 1) + (Z.to_nat b - Z.to_nat (d - 1)))%nat by lia.
    unfold pathNode. rewrite Nat.add_comm, Nat.iter_add.
    fold (pathNode (leafNode t i) (Z.to_nat (d - 1))).
    rewrite pathNode_top by (done || lia).
    fold (pathNode 0 (Z.to_nat b - Z.to_nat (d - 1))).
    by rewrite pathNode_zero.
Qed.

End GetProofSpec.

(** ** The level-by-level construction of [NewEmptyTree] *)

Section EmptyTree.

Import merkle spec.

Variable HashFunc : list (option Z) -> result Z.

Lemma fillLevel_spec fuel : forall j nodesAmount firstNodeIndex leafValue nodes,
  0 <= j <= nodesAmount -> (Z.to_nat (nodesAmount - j) <= fuel)%nat ->
  0 <= firstNodeIndex -> firstNodeIndex + nodesAmount <= Go.len nodes ->
  Go.len nodes < 2 ^ 62 ->
  exists nodes',
    fillLevel fuel j nodesAmount firstNodeIndex leafValue nodes = Ok nodes' /\
    Go.len nodes' = Go.len nodes /\
    (forall p, firstNodeIndex + j <= p < firstNodeIndex + nodesAmount ->
       Go.index nodes' p = Ok {| Value := leafValue |}) /\
    (forall p, 0 <= p -> p < firstNodeIndex + j \/ firstNodeIndex + nodesAmount <= p ->
       Go.index nodes' p = Go.index nodes p).
Proof.
  induction fuel as [|fuel IH]; intros j amount first lv nodes Hj Hfuel Hfirst Hfit Hlen;
    simpl.
  - destruct (Z.ltb_spec j amount); [lia|].
    exists nodes. split; [done|]. split; [done|]. split; [intros p Hp; lia | done].
  - destruct (Z.ltb_spec j amount) as [Hlt|].
    2:{ exists nodes. split; [done|]. split; [done|]. split; [intros p Hp; lia | done]. }
    rewrite add_small by lia. rewrite store_in_range by lia. simpl.
    rewrite add_small by lia.
    destruct (IH (j + 1) amount first lv (<[Z.to_nat (first + j) := {| Value := lv |}]> nodes))
      as (nodes' & Erun & Hlen' & Hin & Hout);
      rewrite ?len_insert; try lia.
    exists nodes'. rewrite len_insert in Hlen'.
    split; [done|]. split; [done|]. split.
    + intros p Hp. destruct (Z.eq_dec p (first + j)) as [-> | Hne].
      * rewrite Hout by lia. apply index_insert_eq. lia.
      * apply Hin. lia.
    + intros p Hp Hrange. rewrite Hout by lia. apply index_insert_ne; lia.
Qed.

Lemma computeNodeHash_eta u :
  computeNodeHash HashFunc {| Value := Value u |} {| Value := Value u |}
  = computeNodeHash HashFunc u u.
Proof. by destruct u. Qed.

(** The first self-hash can be taken innermost. *)
Lemma hashSelf_succ_l n v :
  hashSelf HashFunc (S n) v
  = let* u := computeNodeHash HashFunc v v in hashSelf HashFunc n u.
Proof.
  induction n as [|n IH].
  - simpl. by destruct (computeNodeHash HashFunc v v).
  - change (hashSelf HashFunc (S (S n)) v)
      with (let* u := hashSelf HashFunc (S n) v in computeNodeHash HashFunc u u).
    rewrite IH. destruct (computeNodeHash HashFunc v v); reflexivity.
Qed.

(** One iteration of the outer loop. *)
Lemma buildLevels_step fuel depth i nodesAmount firstNodeIndex leafValue nodes :
  buildLevels HashFunc (S fuel) depth i nodesAmount firstNodeIndex leafValue nodes
  = if i <? depth then
      let* nodes := fillLevel (Z.to_nat nodesAmount) 0 nodesAmount
                      (Go.sub firstNodeIndex nodesAmount) leafValue nodes in
      let* leafValue :=
        (if Go.sub firstNodeIndex nodesAmount >? 0 then
           let* node := wrapErr "compute hash"
               (computeChildrenHash HashFunc
                  (Go.sub (Go.sub firstNodeIndex nodesAmount) 1) nodes) in
           Ok (Value node)
         else Ok leafValue) in
      buildLevels HashFunc fuel depth (Go.add i 1) (Go.div nodesAmount 2)
        (Go.sub firstNodeIndex nodesAmount) leafValue nodes
    else Ok nodes.
Proof. reflexivity. Qed.

(** The outer loop with [r] levels left to build, the lowest of which has
    [2^(r-1)] nodes and starts at [2^(r-1) - 1]: either the [r - 1] level
    hashes succeed and the loop fills each level with its value, or one
    of them fails and so does the loop. *)
Lemma buildLevels_spec (r : nat) : forall fuel depth leafValue nodes,
  (r <= 62)%nat -> (r <= fuel)%nat -> Z.of_nat r <= depth <= 62 ->
  Go.len nodes < 2 ^ 62 -> 2 ^ Z.of_nat r - 1 <= Go.len nodes ->
  let run := buildLevels HashFunc fuel depth (depth - Z.of_nat r)
               (2 ^ (Z.of_nat r - 1)) (2 ^ Z.of_nat r - 1) leafValue nodes in
  (exists top nodes',
     hashSelf HashFunc (pred r) {| Value := leafValue |} = Ok top /\
     run = Ok nodes' /\
     Go.len nodes' = Go.len nodes /\
     (forall p, 2 ^ Z.of_nat r - 1 <= p -> Go.index nodes' p = Go.index nodes p) /\
     (forall (k : nat) p, (k < r)%nat ->
        2 ^ Z.of_nat (r - 1 - k) - 1 <= p <= 2 ^ (Z.of_nat (r - 1 - k) + 1) - 2 ->
        Go.index nodes' p = hashSelf HashFunc k {| Value := leafValue |})) \/
  ((forall top, hashSelf HashFunc (pred r) {| Value := leafValue |} <> Ok top) /\
   (forall nodes', run <> Ok nodes')).
Proof.
  induction r as [|r IH]; intros fuel depth lv nodes Hr Hfuel Hdepth Hlen Hfit run.
  - left. exists {| Value := lv |}, nodes. subst run.
    split; [done|]. split.
    { rewrite Z.sub_0_r. destruct fuel; simpl; by rewrite Z.ltb_irrefl. }
    split; [done|]. split; [done|]. intros k p Hk. lia.
  - destruct fuel as [|fuel]; [lia|].
    assert (Hpow : 2 ^ Z.of_nat (S r) = 2 * 2 ^ Z.of_nat r).
    { rewrite Nat2Z.inj_succ, <- Z.add_1_r. apply pow2_succ. lia. }
    pose proof (pow2_le_62 (Z.of_nat r) ltac:(lia)) as Hpr.
    assert (Hamount : 2 ^ (Z.of_nat (S r) - 1) = 2 ^ Z.of_nat r) by (f_equal; lia).
    subst run. rewrite Hamount. rewrite buildLevels_step.
    destruct (Z.ltb_spec (depth - Z.of_nat (S r)) depth); [|lia].
    rewrite sub_small by lia.
    replace (2 ^ Z.of_nat (S r) - 1 - 2 ^ Z.of_nat r) with (2 ^ Z.of_nat r - 1) by lia.
    destruct (fillLevel_spec (Z.to_nat (2 ^ Z.of_nat r)) 0 (2 ^ Z.of_nat r)
                (2 ^ Z.of_nat r - 1) lv nodes)
      as (nodes1 & Efill & Hlen1 & Hin1 & Hout1); try lia.
    rewrite Efill. cbn [Go.bind].
    rewrite add_small by lia.
    replace (depth - Z.of_nat (S r) + 1) with (depth - Z.of_nat r) by lia.
    assert (Hhalf : Go.div (2 ^ Z.of_nat r) 2 = 2 ^ (Z.of_nat r - 1)).
    { rewrite div2_small by lia. destruct r as [|r'].
      - reflexivity.
      - rewrite (pow2_pred (Z.of_nat (S r'))) by lia.
        rewrite Z.mul_comm. apply Z.div_mul. lia. }
    rewrite Hhalf.
    assert (Hlow : forall nodes',
              (forall p, 2 ^ Z.of_nat r - 1 <= p -> Go.index nodes' p = Go.index nodes1 p) ->
              forall p, 2 ^ Z.of_nat (S r - 1 - 0) - 1 <= p
                        <= 2 ^ (Z.of_nat (S r - 1 - 0) + 1) - 2 ->
                        Go.index nodes' p = Ok {| Value := lv |}).
    { intros nodes' Hkeep p Hp.
      replace (S r - 1 - 0)%nat with r in Hp by lia.
      rewrite pow2_succ in Hp by lia.
      rewrite Hkeep by lia. apply Hin1. lia. }
    destruct (Z.gtb_spec (2 ^ Z.of_nat r - 1) 0) as [Hup | Hroot].
    + (* a level above: the hash of the last two nodes of this level *)
      destruct r as [|r']; [simpl in Hup; lia|].
      assert (Hpow' : 2 ^ Z.of_nat (S r') = 2 * 2 ^ Z.of_nat r').
      { rewrite Nat2Z.inj_succ, <- Z.add_1_r. apply pow2_succ. lia. }
      pose proof (pow2_le_62 (Z.of_nat r') ltac:(lia)) as Hpr'.
      rewrite sub_small by lia.
      assert (Ehash : computeChildrenHash HashFunc (2 ^ Z.of_nat (S r') - 1 - 1) nodes1
                      = computeNodeHash HashFunc {| Value := lv |} {| Value := lv |}).
      { unfold computeChildrenHash.
        replace (getChildrenOf (2 ^ Z.of_nat (S r') - 1 - 1) nodes1)
          with (Ok ({| Value := lv |}, {| Value := lv |})); [reflexivity|].
        symmetry. apply getChildrenOf_Ok; [lia|]. split; apply Hin1; lia. }
      rewrite Ehash. cbn [pred].
      rewrite hashSelf_succ_l.
      destruct (computeNodeHash HashFunc {| Value := lv |} {| Value := lv |})
        as [u | e | |] eqn:Eu; cbn [Go.bind wrapErr].
      2,3,4: right; split; [intros top; discriminate | intros nodes'; discriminate].
      specialize (IH fuel depth (Value u) nodes1 ltac:(lia) ltac:(lia) ltac:(lia)
                     ltac:(lia) ltac:(lia)).
      cbn zeta in IH. cbn [pred] in IH.
      replace {| Value := Value u |} with u in IH by (by destruct u).
      destruct IH as [(top & nodes' & Htop & Erun & Hlen' & Hkeep & Hlevels) | [Hno Hfail]].
      * left. exists top, nodes'. split; [done|]. split; [done|].
        split; [lia|]. split.
        { intros p Hp. rewrite Hkeep by lia. apply Hout1; lia. }
        intros [|k] p Hk Hp.
        { simpl hashSelf. by apply (Hlow nodes'). }
        rewrite hashSelf_succ_l, Eu. cbn [Go.bind].
        apply Hlevels; [lia|].
        replace (S r' - 1 - k)%nat with (S (S r') - 1 - S k)%nat by lia. done.
      * right. split; [|done].
        intros top. destruct r' as [|r'']; [|apply Hno].
        exfalso. by apply (Hno u).
    + (* the root level *)
      assert (r = 0%nat) as ->.
      { clear IH. destruct r as [|r0]; [done|]. exfalso.
        pose proof (pow2_pred (Z.of_nat (S r0)) ltac:(lia)).
        pose proof (pow2_le_62 (Z.of_nat (S r0) - 1) ltac:(lia)). lia. }
      cbn [Go.bind].
      specialize (IH fuel depth lv nodes1 ltac:(lia) ltac:(lia) ltac:(lia)
                     ltac:(lia) ltac:(simpl; lia)).
      cbn zeta in IH.
      destruct IH as [(top & nodes' & Htop & Erun & Hlen' & Hkeep & Hlevels) | [Hno Hfail]].
      * left. exists top, nodes'. split; [done|]. split; [done|].
        split; [lia|]. split.
        { intros p Hp. rewrite Hkeep by (simpl in *; lia). apply Hout1; simpl in *; lia. }
        intros k p Hk Hp. assert (k = 0%nat) as -> by lia.
        simpl hashSelf. by apply (Hlow nodes').
      * exfalso. by apply (Hno {| Value := lv |}).
Qed.

(** Only depths from 1 to 45 pass the depth check and the allocation. *)
Lemma NewEmptyTree_depth d v t :
  NewEmptyTree HashFunc d v = Ok t -> 1 <= d <= 45.
Proof.
  unfold NewEmptyTree. intros H.
  destruct (Z.ltb_spec d 1); [discriminate|].
  destruct (Z.le_gt_cases d 45) as [|Hbig]; [lia|]. exfalso.
  unfold Go.shl at 1 in H.
  destruct (Z.ltb_spec d 0); [lia|]. cbn [Go.bind] in H.
  assert (Hmake : forall n, Go.make sizeofTreeNode
                    (Go.sub (if 64 <=? d then 0 else Go.wrap (1 * 2 ^ d)) 1) zeroNode
                    = Ok n -> False).
  { intros n. unfold Go.make, Go.maxAlloc, sizeofTreeNode.
    destruct (Z.leb_spec 64 d).
    - vm_compute. discriminate.
    - destruct (Z.le_gt_cases d 62).
      + rewrite Z.mul_1_l. pose proof (pow2_le_62 d ltac:(lia)).
        rewrite wrap_small by lia. rewrite sub_small by lia.
        assert (2 ^ 46 <= 2 ^ d) by (apply Z.pow_le_mono_r; lia).
        destruct (Z.ltb_spec (2 ^ d - 1) 0); [discriminate|].
        destruct (Z.ltb_spec (2 ^ 48) ((2 ^ d - 1) * 8)); [discriminate | lia].
      + assert (d = 63) as -> by lia. vm_compute. discriminate. }
  destruct (Go.make sizeofTreeNode _ zeroNode) as [n | | |] eqn:E;
    try discriminate. by apply (Hmake n).
Qed.

Lemma NewEmptyTree_spec d v :
  1 <= d <= 45 ->
  (exists top t,
     hashSelf HashFunc (Z.to_nat (d - 1)) {| Value := v |} = Ok top /\
     NewEmptyTree HashFunc d v = Ok t /\
     Go.len (Nodes t) = 2 ^ d - 1 /\
     (forall (k : nat) p, Z.of_nat k < d ->
        2 ^ (d - 1 - Z.of_nat k) - 1 <= p <= 2 ^ (d - Z.of_nat k) - 2 ->
        Go.index (Nodes t) p = hashSelf HashFunc k {| Value := v |})) \/
  ((forall top, hashSelf HashFunc (Z.to_nat (d - 1)) {| Value := v |} <> Ok top) /\
   (forall t, NewEmptyTree HashFunc d v <> Ok t)).
Proof.
  intros Hd. unfold NewEmptyTree.
  destruct (Z.ltb_spec d 1); [lia|].
  rewrite shl1_small by lia. cbn [Go.bind].
  pose proof (pow2_le_62 d ltac:(lia)) as Hp.
  assert (Hp45 : 2 ^ d <= 2 ^ 45) by (apply Z.pow_le_mono_r; lia).
  rewrite sub_small by lia.
  unfold Go.make, Go.maxAlloc, sizeofTreeNode.
  destruct (Z.ltb_spec (2 ^ d - 1) 0); [lia|].
  destruct (Z.ltb_spec (2 ^ 48) ((2 ^ d - 1) * 8)); [lia|]. cbn [orb Go.bind].
  rewrite sub_small by lia. rewrite shl1_small by lia. cbn [Go.bind].
  set (nodes0 := replicate (Z.to_nat (2 ^ d - 1)) zeroNode).
  assert (Hlen0 : Go.len nodes0 = 2 ^ d - 1).
  { unfold Go.len, nodes0. rewrite length_replicate. lia. }
  rewrite Hlen0.
  pose proof (buildLevels_spec (Z.to_nat d) (Z.to_nat d) d v nodes0
                ltac:(lia) ltac:(lia) ltac:(lia) ltac:(lia)) as Hrun.
  rewrite Z2Nat.id in Hrun by lia. rewrite Z.sub_diag in Hrun.
  specialize (Hrun ltac:(lia)). cbn zeta in Hrun.
  replace (pred (Z.to_nat d)) with (Z.to_nat (d - 1)) in Hrun by lia.
  destruct Hrun as [(top & nodes' & Htop & Erun & Hlen' & _ & Hlevels) | [Hno Hfail]].
  - left. exists top, {| Nodes := nodes' |}. rewrite Erun. cbn [Go.bind Nodes].
    split; [done|]. split; [done|]. split; [lia|].
    intros k p Hk Hrange. apply Hlevels; [lia|].
    replace (Z.of_nat (Z.to_nat d - 1 - k)) with (d - 1 - Z.of_nat k) by lia.
    replace (d - 1 - Z.of_nat k + 1) with (d - Z.of_nat k) by lia. done.
  - right. split; [done|]. intros t.
    destruct (buildLevels HashFunc _ _ _ _ _ _ _) as [n | | |] eqn:E;
      cbn [Go.bind]; try discriminate.
    by destruct (Hfail n).
Qed.

End EmptyTree.

(** * The claims of the specification *)

(** ** Inclusion proofs *)

Section ProofClaims.

Import merkle spec.

(** C4. For a tree of depth [d >= 1] and a valid leaf index [i],
    [GetProof(i)] returns a path of exactly [d] entries: entry [k], for
    [k < d - 1], is the sibling of the node at level [k] of the
    leaf-to-root path, and the last entry is the root of the tree. *)
Theorem GetProof_path_layout d t i :
  hasDepth d t -> 0 <= i < 2 ^ (d - 1) ->
  exists proof root,
    GetProof t i = Ok proof /\
    Go.len (Path proof) = d /\
    (forall k : nat, Z.of_nat k < d - 1 ->
       exists sibling,
         Go.index (Path proof) (Z.of_nat k) = Ok sibling /\
         Go.index (Nodes t) (GetSiblingIndex (pathNode (leafNode t i) k))
         = Ok sibling) /\
    Root t = Ok root /\
    Go.index (Path proof) (d - 1) = Ok root.
Proof.
  intros Ht Hi.
  destruct (GetProof_spec d t i Ht Hi) as (proof & Eproof & Hlen & Hsibs & Hroot & _).
  pose proof (hasDepth_small d t Ht) as Hsmall.
  destruct (index_in_range (Nodes t) 0 ltac:(lia)) as [root Eroot].
  exists proof, root. split; [done|]. split; [done|]. split; [|split].
  - intros k Hk.
    destruct (index_in_range (Path proof) (Z.of_nat k) ltac:(lia)) as [sibling Es].
    exists sibling. split; [done|]. by rewrite <- Hsibs.
  - done.
  - by rewrite Hroot.
Qed.

(** C1, as the code behaves. For a tree of depth [d >= 1] and a valid leaf
    index [i], bit [k] of the [Indices] bitmask of [GetProof(i)] is set
    if and only if the array index of the node at level [k] of the
    leaf-to-root path is odd. *)
Theorem GetProof_Indices_bit_odd d t i :
  hasDepth d t -> 0 <= i < 2 ^ (d - 1) ->
  exists proof,
    GetProof t i = Ok proof /\
    forall k : nat,
      Z.testbit (Indices proof) (Z.of_nat k) = true
      <-> Z.odd (pathNode (leafNode t i) k) = true.
Proof.
  intros Ht Hi.
  destruct (GetProof_spec d t i Ht Hi) as (proof & Eproof & _ & _ & _ & Hbits).
  exists proof. split; [done|]. intros k.
  rewrite Hbits by lia. by rewrite Nat2Z.id.
Qed.

End ProofClaims.

Lemma GetProof_path_layout_witness :
  exists proof root,
    merkle.GetProof Sample.tree2 0
    = Ok proof /\
    Go.len (merkle.Path proof) = 2 /\
    (forall k : nat, Z.of_nat k < 2 - 1 ->
       exists sibling,
         Go.index (merkle.Path proof) (Z.of_nat k) = Ok sibling /\
         Go.index (merkle.Nodes Sample.tree2)
           (merkle.GetSiblingIndex
              (spec.pathNode
                 (spec.leafNode
                    Sample.tree2
                    0) k))
         = Ok sibling) /\
    merkle.Root Sample.tree2
    = Ok root /\
    Go.index (merkle.Path proof) (2 - 1) = Ok root.
Proof.
  apply (GetProof_path_layout 2
           Sample.tree2 0).
  - split; [lia | reflexivity].
  - lia.
Defined.

(** C1 as stated fails: on the three-node tree, the path of leaf 0 starts
    at array index 1, which is odd, and bit 0 of the bitmask is set. *)
Lemma GetProof_bit_even_counterexample :
  exists proof,
    merkle.GetProof Sample.tree2 0
    = Ok proof /\
    spec.pathNode
      (spec.leafNode
         Sample.tree2 0) 0 = 1 /\
    ~ (Z.testbit (merkle.Indices proof) 0 = true
       <-> Z.even
             (spec.pathNode
                (spec.leafNode
                   Sample.tree2
                   0) 0) = true).
Proof.
  eexists. split; [reflexivity|]. split; [reflexivity|].
  intros [H _]. specialize (H eq_refl). discriminate H.
Qed.

Lemma GetProof_Indices_bit_odd_witness :
  exists proof,
    merkle.GetProof Sample.tree2 0
    = Ok proof /\
    forall k : nat,
      Z.testbit (merkle.Indices proof) (Z.of_nat k) = true
      <-> Z.odd
            (spec.pathNode
               (spec.leafNode
                  Sample.tree2
                  0) k) = true.
Proof.
  apply (GetProof_Indices_bit_odd 2
           Sample.tree2 0).
  - split; [lia | reflexivity].
  - lia.
Defined.

(** ** Rebuilding the root from a proof *)

Section RootClaims.

Import merkle spec.

Variable HashFunc : list (option Z) -> result Z.

Lemma leafNode_same_len t t' i :
  Go.len (Nodes t') = Go.len (Nodes t) -> leafNode t' i = leafNode t i.
Proof. intros H. unfold leafNode, GetLeavesAmount. by rewrite H. Qed.

Lemma hasDepth_same_len d t t' :
  Go.len (Nodes t') = Go.len (Nodes t) -> hasDepth d t -> hasDepth d t'.
Proof. intros H [Hd Hn]. split; [done | congruence]. Qed.

(** Climbing from level [k]: if every proper ancestor below the top of the path holds
    the hash of its children, folding the siblings recorded from level
    [k] on, with the bits of the path, ends at the root. *)
Lemma rebuildRoot_climb_levels nodes j (h : nat) path indices :
  (h <= 61)%nat ->
  2 ^ Z.of_nat h <= j + 1 < 2 ^ (Z.of_nat h + 1) ->
  (forall k : nat, (k < h)%nat ->
     computeChildrenHash HashFunc (pathNode j (S k)) nodes
     = Go.index nodes (pathNode j (S k))) ->
  (forall k : nat, (k < h)%nat ->
     Go.index path (Z.of_nat k) = Go.index nodes (GetSiblingIndex (pathNode j k))) ->
  (forall k : nat, Z.testbit indices (Z.of_nat k) = Z.odd (pathNode j k)) ->
  forall (m k : nat) current,
    (k + m = h)%nat ->
    Go.index nodes (pathNode j k) = Ok current ->
    rebuildRoot HashFunc current (take m (drop k path)) indices (Z.of_nat k)
    = Go.index nodes 0.
Proof.
  intros Hh Hj Hhash Hsibs Hbits. induction m as [|m IH]; intros k current Hk Hcur.
  - rewrite take_0. simpl. rewrite <- Hcur. f_equal.
    replace k with h by lia. by apply pathNode_top.
  - pose proof (pathNode_positive h j k Hh ltac:(lia) Hj) as Hpos.
    pose proof (pathNode_range j k) as Hrange.
    assert (Hj62 : 0 <= j < 2 ^ 62).
    { pose proof (pow2_le_62 (Z.of_nat h + 1) ltac:(lia)).
      pose proof (pow2_le_62 (Z.of_nat h) ltac:(lia)). lia. }
    specialize (Hrange Hj62).
    pose proof (Hhash k ltac:(lia)) as Hparent. rewrite <- pathNode_parent in Hparent.
    pose proof (parent_small (pathNode j k) ltac:(lia)) as Hpsmall.
    pose proof (GetParentIndex_lt (pathNode j k) ltac:(lia)) as Hplt.
    (* the parent slot is in range, so its hash succeeded *)
    pose proof (index_Ok_range _ _ _ Hcur) as Hin.
    destruct (index_in_range nodes (GetParentIndex (pathNode j k)) ltac:(lia))
      as [parent Eparent].
    rewrite Eparent in Hparent.
    pose proof (computeChildrenHash_Ok_range HashFunc _ _ _ Hpsmall Hparent) as Hkids.
    (* the recorded sibling *)
    specialize (Hsibs k ltac:(lia)).
    assert (Hsin : 0 <= GetSiblingIndex (pathNode j k) < Go.len nodes).
    { destruct (sibling_of_child (pathNode j k) ltac:(lia))
        as [(_ & -> & _) | (_ & -> & _)]; lia. }
    destruct (index_in_range nodes _ Hsin) as [sibling Esib].
    rewrite Esib in Hsibs. apply index_Ok in Hsibs as [_ Hlook].
    rewrite Nat2Z.id in Hlook.
    rewrite (drop_S _ _ _ Hlook). cbn [take rebuildRoot].
    rewrite Hbits.
    unfold computeChildrenHash in Hparent.
    destruct (getChildrenOf (GetParentIndex (pathNode j k)) nodes)
      as [[l r] | | |] eqn:Ekids; try discriminate.
    cbn [Go.bind] in Hparent.
    apply getChildrenOf_Ok in Ekids as [El Er]; [|done].
    assert (Hstep :
      (if Z.odd (pathNode j k)
       then computeNodeHash HashFunc current sibling
       else computeNodeHash HashFunc sibling current) = Ok parent).
    { destruct (sibling_of_child (pathNode j k) ltac:(lia))
        as [(Hc & Hs & ->) | (Hc & Hs & ->)];
        rewrite Hs in Esib; rewrite <- Hc in *; congruence. }
    rewrite Hstep. cbn [Go.bind].
    replace (Z.of_nat k + 1) with (Z.of_nat (S k)) by lia.
    apply IH; [lia|]. by rewrite <- pathNode_parent.
Qed.

Lemma rebuildRoot_climb nodes j (h : nat) path indices :
  (h <= 61)%nat ->
  2 ^ Z.of_nat h <= j + 1 < 2 ^ (Z.of_nat h + 1) ->
  (forall k, computeChildrenHash HashFunc (pathNode j (S k)) nodes
             = Go.index nodes (pathNode j (S k))) ->
  (forall k : nat, (k < h)%nat ->
     Go.index path (Z.of_nat k) = Go.index nodes (GetSiblingIndex (pathNode j k))) ->
  (forall k : nat, Z.testbit indices (Z.of_nat k) = Z.odd (pathNode j k)) ->
  forall (m k : nat) current,
    (k + m = h)%nat ->
    Go.index nodes (pathNode j k) = Ok current ->
    rebuildRoot HashFunc current (take m (drop k path)) indices (Z.of_nat k)
    = Go.index nodes 0.
Proof.
  intros Hh Hj Hhash. apply rebuildRoot_climb_levels; [done | done |].
  intros k _. apply Hhash.
Qed.

(** C2, as the code lays the bits out. For a tree of depth [d >= 1], a
    leaf index [i] and a value [x]: after [SetLeaf(i, x)] succeeds,
    combining [x] with the first [d - 1] entries of [GetProof(i).Path]
    level by level, computing [Hash(current, sibling)] when bit [k] of
    [Indices] is 1 and [Hash(sibling, current)] when it is 0, yields the
    tree's current [Root()]. *)
Theorem SetLeaf_GetProof_rebuilds_root d t i x t' :
  hasDepth d t ->
  SetLeaf HashFunc t i x = (t', Ok tt) ->
  exists proof root,
    GetProof t' i = Ok proof /\
    Root t' = Ok root /\
    rebuildRoot HashFunc x (take (Z.to_nat (d - 1)) (Path proof)) (Indices proof) 0
    = Ok root.
Proof.
  intros Ht Hset.
  pose proof (hasDepth_small d t Ht) as Hsmall.
  pose proof (SetLeaf_frame HashFunc t i x t' (Ok tt) ltac:(lia) Hset) as [Hlen _].
  pose proof (SetLeaf_Ok_spec HashFunc t i x t' ltac:(lia) Hset)
    as (Hi & Hleaf & Hx & Hhash).
  rewrite (hasDepth_leaves d) in Hi by done.
  pose proof (hasDepth_same_len d t t' Hlen Ht) as Ht'.
  destruct (GetProof_spec d t' i Ht' Hi) as (proof & Eproof & Hplen & Hsibs & _ & Hbits).
  rewrite (leafNode_same_len t t' i Hlen) in *.
  destruct (index_in_range (Nodes t') 0 ltac:(lia)) as [root Eroot].
  exists proof, root. split; [done|]. split; [done|].
  destruct (leafNode_level d t i Ht Hi) as [Hlevel _].
  destruct Ht as [Hd _].
  rewrite <- Eroot.
  pose proof (rebuildRoot_climb (Nodes t') (leafNode t i) (Z.to_nat (d - 1))
                (Path proof) (Indices proof) ltac:(lia) Hlevel Hhash) as Hclimb.
  specialize (Hclimb ltac:(intros k Hk; apply Hsibs; lia)).
  specialize (Hclimb ltac:(intros k; rewrite Hbits by lia; by rewrite Nat2Z.id)).
  apply (Hclimb (Z.to_nat (d - 1)) 0%nat x); [lia | done].
Qed.

End RootClaims.

Lemma SetLeaf_GetProof_rebuilds_root_witness :
  exists proof root,
    merkle.GetProof
      {| merkle.Nodes := [Sample.node 76; Sample.node 9; Sample.node 5] |} 0 = Ok proof /\
    merkle.Root {| merkle.Nodes := [Sample.node 76; Sample.node 9; Sample.node 5] |}
    = Ok root /\
    spec.rebuildRoot Sample.Hash (Sample.node 9)
      (take (Z.to_nat (2 - 1)) (merkle.Path proof)) (merkle.Indices proof) 0
    = Ok root.
Proof.
  apply (SetLeaf_GetProof_rebuilds_root Sample.Hash 2 Sample.tree2 0 (Sample.node 9)).
  - split; [lia | reflexivity].
  - reflexivity.
Defined.

(** C2 as stated fails: with the documented reading of the bits (a set bit
    puts the sibling on the left), the fold over the proof of leaf 0 gives
    [Hash [5; 9]] and not the root [Hash [9; 5]]. *)
Lemma rebuildRootDocumented_counterexample :
  exists t' proof root,
    merkle.SetLeaf Sample.Hash Sample.tree2 0 (Sample.node 9) = (t', Ok tt) /\
    merkle.GetProof t' 0 = Ok proof /\
    merkle.Root t' = Ok root /\
    spec.rebuildRootDocumented Sample.Hash (Sample.node 9)
      (take (Z.to_nat (2 - 1)) (merkle.Path proof)) (merkle.Indices proof) 0
    <> Ok root.
Proof.
  eexists _, _, _. split; [reflexivity|]. split; [reflexivity|].
  split; [reflexivity|]. vm_compute. discriminate.
Qed.

(** ** Construction, update and the node invariant *)

Section TreeClaims.

Import merkle spec.

Variable HashFunc : list (option Z) -> result Z.

(** C3 fails at depth 1. [NewEmptyTree(1, v)] returns the one-node tree,
    on which leaf 0 is the root; [SetLeaf(0, x)] stores [x] and then
    recomputes the root from the children slots 1 and 2, which lie
    outside the array: the call panics. *)
Theorem SetLeaf_depth1_panics v x :
  exists t,
    NewEmptyTree HashFunc 1 v = Ok t /\
    hasDepth 1 t /\
    GetLeavesAmount t = 1 /\
    SetLeaf HashFunc t 0 x = ({| Nodes := [x] |}, Panic).
Proof.
  exists {| Nodes := [{| Value := v |}] |}.
  split; [reflexivity|]. split; [split; [lia | reflexivity]|].
  split; reflexivity.
Qed.

Lemma hashSelf_prefix n m v top :
  hashSelf HashFunc n v = Ok top -> (m <= n)%nat ->
  exists u, hashSelf HashFunc m v = Ok u.
Proof.
  revert top. induction n as [|n IH]; intros top H Hm.
  - assert (m = 0%nat) as -> by lia. eauto.
  - destruct (Nat.eq_dec m (S n)) as [-> | Hne]; [eauto|].
    simpl in H. destruct (hashSelf HashFunc n v) as [u | | |] eqn:E; try discriminate.
    apply (IH u); [done | lia].
Qed.

(** C5, as the code behaves. For a depth [d] from 1 to 45 (the depths
    whose [2^d - 1] nodes can be allocated) and a leaf value [v] whose
    [d - 1] level hashes succeed, [NewEmptyTree(d, v)] yields a tree with
    exactly [2^d - 1] nodes and [2^(d-1)] leaves, and its [Root()] is [v]
    hashed with itself pairwise [d - 1] times, once per level above the
    leaves. *)
Theorem NewEmptyTree_shape_and_root d v top :
  1 <= d <= 45 ->
  hashSelf HashFunc (Z.to_nat (d - 1)) {| Value := v |} = Ok top ->
  exists t,
    NewEmptyTree HashFunc d v = Ok t /\
    Go.len (Nodes t) = 2 ^ d - 1 /\
    GetLeavesAmount t = 2 ^ (d - 1) /\
    Root t = Ok top.
Proof.
  intros Hd Htop.
  destruct (NewEmptyTree_spec HashFunc d v Hd)
    as [(top' & t & Htop' & Enew & Hlen & Hlevels) | [Hno _]].
  2:{ by destruct (Hno top). }
  exists t. split; [done|]. split; [done|]. split.
  - apply hasDepth_leaves. split; [lia | done].
  - unfold Root. rewrite <- Htop.
    apply Hlevels; [lia|].
    rewrite Z2Nat.id by lia.
    replace (d - 1 - (d - 1)) with 0 by lia.
    replace (d - (d - 1)) with 1 by lia. simpl. lia.
Qed.

(** The empty tree satisfies the node invariant. *)
Lemma NewEmptyTree_invariant d v t :
  NewEmptyTree HashFunc d v = Ok t -> hasDepth d t /\ NodeInvariant HashFunc t.
Proof.
  intros Hnew. pose proof (NewEmptyTree_depth HashFunc d v t Hnew) as Hd.
  destruct (NewEmptyTree_spec HashFunc d v Hd)
    as [(top & t0 & Htop & Enew & Hlen & Hlevels) | [_ Hno]].
  2:{ by destruct (Hno t). }
  assert (t0 = t) as -> by congruence.
  split; [split; [lia | done]|].
  intros i [Hi0 Hi]. rewrite Hlen in Hi.
  (* the level of [i], counted from the root *)
  set (L := Z.log2 (i + 1)).
  pose proof (Z.log2_spec (i + 1) ltac:(lia)) as HL. fold L in HL.
  pose proof (Z.log2_nonneg (i + 1)) as HL0. fold L in HL0.
  rewrite Z.pow_succ_r in HL by done.
  assert (HLd : L + 1 < d).
  { destruct (Z.lt_ge_cases (L + 1) d) as [|Hge]; [done|]. exfalso.
    assert (2 ^ d <= 2 ^ (L + 1)) by (apply Z.pow_le_mono_r; lia).
    rewrite pow2_succ in * by done. lia. }
  pose proof (pow2_le_62 d ltac:(lia)) as Hpd.
  assert (2 ^ (L + 1) <= 2 ^ d) by (apply Z.pow_le_mono_r; lia).
  rewrite pow2_succ in * by done.
  (* levels counted from the leaves *)
  set (k := Z.to_nat (d - 1 - L - 1)).
  destruct (hashSelf_prefix _ (S k) _ _ Htop ltac:(lia)) as [me Hme].
  destruct (hashSelf_prefix _ k _ _ Htop ltac:(lia)) as [kid Hkid].
  assert (Ei : Go.index (Nodes t) i = Ok me).
  { rewrite <- Hme. apply Hlevels; [lia|].
    replace (d - 1 - Z.of_nat (S k)) with L by lia.
    replace (d - Z.of_nat (S k)) with (L + 1) by lia.
    rewrite pow2_succ by done. lia. }
  assert (Ekids : forall c, 2 * i + 1 <= c <= 2 * i + 2 ->
                            Go.index (Nodes t) c = Ok kid).
  { intros c Hc. rewrite <- Hkid. apply Hlevels; [lia|].
    replace (d - 1 - Z.of_nat k) with (L + 1) by lia.
    replace (d - Z.of_nat k) with (L + 1 + 1) by lia.
    rewrite !pow2_succ by lia. lia. }
  rewrite Ei. unfold computeChildrenHash.
  replace (getChildrenOf i (Nodes t)) with (Ok (kid, kid)).
  - cbn [Go.bind]. simpl in Hme. rewrite Hkid in Hme. exact Hme.
  - symmetry. apply getChildrenOf_Ok; [lia|]. split; apply Ekids; lia.
Qed.

(** Whether an index lies on a path can be decided by walking the path. *)
Lemma on_path_dec j a :
  0 <= j < 2 ^ 62 ->
  (exists k, pathNode j k = a) \/ (forall k, pathNode j k <> a).
Proof.
  intros Hj.
  assert (Hbounded : forall n : nat,
            (exists k, pathNode j k = a) \/
            (forall k, (k < n)%nat -> pathNode j k <> a)).
  { induction n as [|n [Hyes | Hno]].
    - right. intros k Hk. lia.
    - by left.
    - destruct (Z.eq_dec (pathNode j n) a) as [Heq | Hne]; [left; eauto|].
      right. intros k Hk. destruct (Nat.eq_dec k n) as [-> | ?]; [done|].
      apply Hno. lia. }
  destruct (Hbounded (S (Z.to_nat j))) as [Hyes | Hno]; [by left|].
  right. intros k. destruct (Nat.lt_ge_cases k (S (Z.to_nat j))) as [|Hge].
  - by apply Hno.
  - replace k with ((k - Z.to_nat j) + Z.to_nat j)%nat by lia.
    unfold pathNode. rewrite Nat.iter_add.
    fold (pathNode j (Z.to_nat j)). rewrite pathNode_reaches_root by done.
    fold (pathNode 0 (k - Z.to_nat j)). rewrite pathNode_zero.
    rewrite <- (pathNode_reaches_root j Hj). apply Hno. lia.
Qed.

(** A successful [SetLeaf] keeps the node invariant. *)
Lemma SetLeaf_invariant d t i x t' :
  hasDepth d t -> NodeInvariant HashFunc t ->
  SetLeaf HashFunc t i x = (t', Ok tt) ->
  hasDepth d t' /\ NodeInvariant HashFunc t'.
Proof.
  intros Ht Hinv Hset.
  pose proof (hasDepth_small d t Ht) as Hsmall.
  pose proof (SetLeaf_frame HashFunc t i x t' (Ok tt) ltac:(lia) Hset) as [Hlen Hframe].
  pose proof (SetLeaf_Ok_spec HashFunc t i x t' ltac:(lia) Hset)
    as (Hi & Hleaf & Hx & Hhash).
  split; [by apply (hasDepth_same_len d t)|].
  intros a [Ha0 Ha]. rewrite Hlen in Ha.
  set (j := leafNode t i) in *.
  destruct (on_path_dec j a ltac:(lia)) as [[k Hk] | Hoff].
  - destruct k as [|k]; [|rewrite <- Hk; apply Hhash].
    (* the leaf itself is not an internal node *)
    exfalso. simpl in Hk. subst a. unfold j, leafNode in Ha.
    rewrite GetLeavesAmount_small in * by lia.
    pose proof (Z.div_mod (Go.len (Nodes t) + 1) 2 ltac:(lia)).
    pose proof (Z.mod_pos_bound (Go.len (Nodes t) + 1) 2 ltac:(lia)).
    rewrite sub_small in Ha by lia. rewrite add_small in Ha by lia. lia.
  - rewrite (Hframe a) by done. rewrite <- (Hinv a) by (split; lia).
    assert (Hkid : forall c, 1 <= c < 2 ^ 62 -> GetParentIndex c = a ->
                             forall k, pathNode j k <> c).
    { intros c Hc Hpar k Hk. apply (Hoff (S k)).
      rewrite <- pathNode_parent, Hk. done. }
    apply computeChildrenHash_ext; [lia | |]; apply Hframe; try lia.
    + apply Hkid; [lia|]. apply parent_of_left; lia.
    + apply Hkid; [lia|]. apply parent_of_right; lia.
Qed.

(** C6. Every tree returned by [NewEmptyTree(d, v)] satisfies the
    invariant that each internal node [i] holds
    [Hash(Nodes[2i+1].Value, Nodes[2i+2].Value)], and every successful
    [SetLeaf] call on a tree of depth [d] that satisfies it returns a tree
    of depth [d] that satisfies it as well. *)
Theorem NodeInvariant_established_and_preserved d :
  (forall v t, NewEmptyTree HashFunc d v = Ok t ->
     hasDepth d t /\ NodeInvariant HashFunc t) /\
  (forall t i x t',
     hasDepth d t -> NodeInvariant HashFunc t ->
     SetLeaf HashFunc t i x = (t', Ok tt) ->
     hasDepth d t' /\ NodeInvariant HashFunc t').
Proof.
  split.
  - intros v t. apply NewEmptyTree_invariant.
  - intros t i x t'. apply SetLeaf_invariant.
Qed.

End TreeClaims.

Lemma NewEmptyTree_shape_and_root_witness :
  exists t,
    merkle.NewEmptyTree Sample.Hash 3 (Some 5) = Ok t /\
    Go.len (merkle.Nodes t) = 2 ^ 3 - 1 /\
    merkle.GetLeavesAmount t = 2 ^ (3 - 1) /\
    merkle.Root t = Ok (Sample.node 392).
Proof.
  apply (NewEmptyTree_shape_and_root Sample.Hash 3 (Some 5) (Sample.node 392)).
  - lia.
  - reflexivity.
Defined.

(** C5 as stated fails: the empty tree of depth 2 has the root [H(5,5) = 48],
    one hash above the leaves, and not the result of two self-hashes. *)
Lemma NewEmptyTree_root_counterexample :
  exists t root twice,
    merkle.NewEmptyTree Sample.Hash 2 (Some 5) = Ok t /\
    merkle.Root t = Ok root /\
    spec.hashSelf Sample.Hash 2 (Sample.node 5) = Ok twice /\
    root <> twice.
Proof.
  eexists _, _, _. split; [reflexivity|]. split; [reflexivity|].
  split; [reflexivity|]. discriminate.
Qed.

Lemma NodeInvariant_established_and_preserved_witness :
  (spec.hasDepth 2 Sample.tree2 /\ spec.NodeInvariant Sample.Hash Sample.tree2) /\
  (spec.hasDepth 2
     {| merkle.Nodes := [Sample.node 76; Sample.node 9; Sample.node 5] |} /\
   spec.NodeInvariant Sample.Hash
     {| merkle.Nodes := [Sample.node 76; Sample.node 9; Sample.node 5] |}).
Proof.
  pose proof (proj1 (NodeInvariant_established_and_preserved Sample.Hash 2)
                (Some 5) Sample.tree2 eq_refl) as Hnew.
  split; [exact Hnew|].
  apply (proj2 (NodeInvariant_established_and_preserved Sample.Hash 2)
           Sample.tree2 0 (Sample.node 9)).
  - exact (proj1 Hnew).
  - exact (proj2 Hnew).
  - reflexivity.
Defined.

(** ** The frame of [SetLeaf] *)

Section FrameClaims.

Import merkle spec.

Variable HashFunc : list (option Z) -> result Z.

(** C10, as the code behaves. For valid leaf indices [i] and [j] of a tree
    of depth [d] whose paths share no node below the root, and every value
    [x]: [GetProof(j)] has the same bitmask before and after
    [SetLeaf(i, x)], and the same sibling entries at the levels
    [0 .. d - 3]; the entry at level [d - 2], the child of the root on the
    path of [i], is not among them. *)
Theorem SetLeaf_keeps_lower_siblings d t i j x t' r :
  hasDepth d t -> 0 <= i < 2 ^ (d - 1) -> 0 <= j < 2 ^ (d - 1) ->
  disjointBelowRoot t i j ->
  SetLeaf HashFunc t i x = (t', r) ->
  exists before after,
    GetProof t j = Ok before /\
    GetProof t' j = Ok after /\
    Indices after = Indices before /\
    forall k, 0 <= k < d - 2 ->
      Go.index (Path after) k = Go.index (Path before) k.
Proof.
  intros Ht Hi Hj Hdisj Hset.
  pose proof (hasDepth_small d t Ht) as Hsmall.
  pose proof (SetLeaf_frame HashFunc t i x t' r ltac:(lia) Hset) as [Hlen Hframe].
  pose proof (hasDepth_same_len d t t' Hlen Ht) as Ht'.
  destruct (GetProof_spec d t j Ht Hj) as (before & Eb & _ & Hsb & _ & Hbb).
  destruct (GetProof_spec d t' j Ht' Hj) as (after & Ea & _ & Hsa & _ & Hba).
  rewrite (leafNode_same_len t t' j Hlen) in *.
  exists before, after. split; [done|]. split; [done|]. split.
  - apply Z.bits_inj'. intros n Hn. by rewrite Hba, Hbb.
  - intros k Hk.
    replace k with (Z.of_nat (Z.to_nat k)) by lia.
    rewrite Hsa, Hsb by lia.
    destruct (leafNode_level d t j Ht Hj) as [Hlevel Hin].
    destruct Ht as [Hd _].
    pose proof (pathNode_positive (Z.to_nat (d - 1)) (leafNode t j) (Z.to_nat k)
                  ltac:(lia) ltac:(lia) Hlevel) as Hpos.
    pose proof (pathNode_positive (Z.to_nat (d - 1)) (leafNode t j) (S (Z.to_nat k))
                  ltac:(lia) ltac:(lia) Hlevel) as Hpos'.
    pose proof (pathNode_range (leafNode t j) (Z.to_nat k) ltac:(lia)) as Hrange.
    set (p := pathNode (leafNode t j) (Z.to_nat k)) in *.
    assert (Hsib : 1 <= GetSiblingIndex p < 2 ^ 62 /\
                   GetParentIndex (GetSiblingIndex p) = GetParentIndex p).
    { pose proof (GetParentIndex_lt p ltac:(lia)).
      destruct (sibling_of_child p ltac:(lia)) as [(Hc & -> & _) | (Hc & -> & _)].
      - split; [lia|]. apply parent_of_right; lia.
      - split; [lia|]. apply parent_of_left; lia. }
    destruct Hsib as [Hsrange Hspar].
    apply Hframe; [lia|].
    intros m Hm.
    assert (Hshared : pathNode (leafNode t i) (S m) = pathNode (leafNode t j) (S (Z.to_nat k))).
    { rewrite <- !pathNode_parent. fold p. by rewrite Hm, Hspar. }
    apply Hdisj in Hshared as Hzero. rewrite Hshared in Hzero. lia.
Qed.

End FrameClaims.

Lemma Sample_disjoint : spec.disjointBelowRoot Sample.tree2 0 1.
Proof.
  intros a b. destruct a as [|a].
  - destruct b as [|b]; [discriminate|].
    rewrite pathNode_succ. change (merkle.GetParentIndex _) with 0.
    rewrite pathNode_zero. discriminate.
  - intros _. rewrite pathNode_succ.
    change (merkle.GetParentIndex _) with 0. apply pathNode_zero.
Qed.

(** In the tree of depth 3, leaves 0 and 2 lie under different children of
    the root. *)
Lemma Sample_disjoint3 : spec.disjointBelowRoot Sample.tree3 0 2.
Proof.
  intros a b. change (spec.leafNode Sample.tree3 0) with 3.
  change (spec.leafNode Sample.tree3 2) with 5.
  destruct a as [|[|a]].
  - destruct b as [|[|b]]; [discriminate | discriminate |].
    rewrite !pathNode_succ. change (merkle.GetParentIndex 5) with 2.
    change (merkle.GetParentIndex 2) with 0. rewrite pathNode_zero. discriminate.
  - destruct b as [|[|b]]; [discriminate | discriminate |].
    rewrite !pathNode_succ. change (merkle.GetParentIndex 5) with 2.
    change (merkle.GetParentIndex 2) with 0. rewrite pathNode_zero. discriminate.
  - intros _. rewrite !pathNode_succ. change (merkle.GetParentIndex 3) with 1.
    change (merkle.GetParentIndex 1) with 0. apply pathNode_zero.
Qed.

Lemma SetLeaf_keeps_lower_siblings_witness :
  exists before after,
    merkle.GetProof Sample.tree3 2 = Ok before /\
    merkle.GetProof (merkle.SetLeaf Sample.Hash Sample.tree3 0 (Sample.node 9)).1 2
    = Ok after /\
    merkle.Indices after = merkle.Indices before /\
    forall k, 0 <= k < 3 - 2 ->
      Go.index (merkle.Path after) k = Go.index (merkle.Path before) k.
Proof.
  apply (SetLeaf_keeps_lower_siblings Sample.Hash 3 Sample.tree3 0 2
           (Sample.node 9) _ (Ok tt)).
  - split; [lia | reflexivity].
  - lia.
  - lia.
  - exact Sample_disjoint3.
  - reflexivity.
Defined.

(** C10 as stated fails: in the tree of depth 2 the paths of leaves 0 and
    1 meet only at the root, and [SetLeaf(0, 9)] changes the one sibling
    entry of [GetProof(1)] from 5 to 9. *)
Lemma SetLeaf_sibling_counterexample :
  exists t' before after,
    spec.disjointBelowRoot Sample.tree2 0 1 /\
    merkle.SetLeaf Sample.Hash Sample.tree2 0 (Sample.node 9) = (t', Ok tt) /\
    merkle.GetProof Sample.tree2 1 = Ok before /\
    merkle.GetProof t' 1 = Ok after /\
    take (Z.to_nat (2 - 1)) (merkle.Path after)
    <> take (Z.to_nat (2 - 1)) (merkle.Path before).
Proof.
  eexists _, _, _. split; [exact Sample_disjoint|].
  split; [reflexivity|]. split; [reflexivity|]. split; [reflexivity|].
  discriminate.
Qed.

(** ** Certificate construction *)

Section CertificateClaims.

Import zkcertificate.

Variable poseidon_Hash : list (option Z) -> result Z.
Variable VerifyPoseidon : babyjub.PublicKey -> Z -> babyjub.Signature -> result bool.
Variable HashFromBigInt : Z -> Hash.
Variable Standard : Type.
Variable Standard_String : Standard -> string.
Variable Time : Type.
Variable Time_Unix : Time -> Z.
Context {T : Type} `{ContentT : Content Standard T}.

Local Abbreviation New' :=
  (New poseidon_Hash VerifyPoseidon HashFromBigInt Standard Standard_String
       Time Time_Unix).
Local Abbreviation VerifySignature' := (VerifySignature poseidon_Hash VerifyPoseidon).

(** What a returned certificate tells about the run of [New]. *)
Lemma New_Ok_inv holderCommitment (content : T) providerPublicKey providerSignature
    salt expirationDate cert :
  New' holderCommitment content providerPublicKey providerSignature salt
       expirationDate = Ok cert ->
  exists contentHash leafHash,
    Content_Hash Standard content = Ok contentHash /\
    VerifySignature' providerPublicKey contentHash holderCommitment
      providerSignature = Ok true /\
    LeafHash poseidon_Hash HashFromBigInt Time Time_Unix contentHash
      providerPublicKey providerSignature holderCommitment salt expirationDate
    = Ok leafHash /\
    cert = {| HolderCommitment := holderCommitment;
              LeafHash_ := leafHash;
              DID_ := DID Standard Standard_String (Content_Standard Standard content)
                          leafHash;
              Standard_ := Content_Standard Standard content;
              Content_ := content;
              ContentHash := contentHash;
              ExpirationDate := expirationDate;
              Provider := {| PublicKey := providerPublicKey;
                             Signature := providerSignature |};
              RandomSalt := salt |}.
Proof.
  unfold New. intros H.
  destruct (Content_Hash Standard content) as [contentHash | | |] eqn:Ec;
    try discriminate. cbn [wrapErr Go.bind] in H.
  destruct (VerifySignature' providerPublicKey contentHash holderCommitment
              providerSignature) as [[|] | | |] eqn:Ev; try discriminate.
  cbn [wrapErr Go.bind negb] in H.
  destruct (LeafHash poseidon_Hash HashFromBigInt Time Time_Unix contentHash
              providerPublicKey providerSignature holderCommitment salt
              expirationDate) as [leafHash | | |] eqn:El; try discriminate.
  cbn [wrapErr Go.bind] in H. inversion H. subst cert.
  exists contentHash, leafHash. repeat split; done.
Qed.

(** C7. If the content's [Hash()] succeeds and the provider signature does
    not verify against the provider key over
    [(contentHash, holderCommitment)], [New] fails with the error
    [invalid signature] and returns no certificate; [New] returns a
    certificate only when the signature verifies. *)
Theorem New_requires_valid_signature holderCommitment (content : T)
    providerPublicKey providerSignature salt expirationDate :
  (forall contentHash,
     Content_Hash Standard content = Ok contentHash ->
     VerifySignature poseidon_Hash VerifyPoseidon providerPublicKey contentHash holderCommitment
       providerSignature = Ok false ->
     New poseidon_Hash VerifyPoseidon HashFromBigInt Standard Standard_String
       Time Time_Unix holderCommitment content providerPublicKey
       providerSignature salt expirationDate = Err (errorString "invalid signature")) /\
  (forall cert,
     New poseidon_Hash VerifyPoseidon HashFromBigInt Standard Standard_String
       Time Time_Unix holderCommitment content providerPublicKey
       providerSignature salt expirationDate = Ok cert ->
     exists contentHash,
       Content_Hash Standard content = Ok contentHash /\
       VerifySignature poseidon_Hash VerifyPoseidon providerPublicKey contentHash holderCommitment
         providerSignature = Ok true).
Proof.
  split.
  - intros contentHash Hhash Hverify. unfold New.
    rewrite Hhash. cbn [wrapErr Go.bind]. rewrite Hverify. reflexivity.
  - intros cert Hnew.
    destruct (New_Ok_inv _ _ _ _ _ _ _ Hnew) as (contentHash & _ & Hc & Hv & _).
    eauto.
Qed.

(** C8. For every certificate returned by [New], the [LeafHash] field is
    the field hash of the nine elements [contentHash], [publicKey.X],
    [publicKey.Y], [signature.S], [signature.R8.X], [signature.R8.Y],
    [holderCommitment], [salt] and the expiration in Unix seconds, in this
    order, and the [DID] field is ["did:"], the standard's text, [":"]
    and the decimal text of the leaf hash. *)
Theorem New_LeafHash_and_DID holderCommitment (content : T)
    providerPublicKey providerSignature salt expirationDate cert :
  New poseidon_Hash VerifyPoseidon HashFromBigInt Standard Standard_String
      Time Time_Unix holderCommitment content providerPublicKey
      providerSignature salt expirationDate = Ok cert ->
  exists contentHash r8 hash,
    Content_Hash Standard content = Ok contentHash /\
    babyjub.R8 providerSignature = Some r8 /\
    poseidon_Hash [Some contentHash;
                   babyjub.X providerPublicKey;
                   babyjub.Y providerPublicKey;
                   babyjub.S providerSignature;
                   babyjub.X r8;
                   babyjub.Y r8;
                   Some holderCommitment;
                   Some salt;
                   Some (Time_Unix expirationDate)] = Ok hash /\
    LeafHash_ _ _ _ cert = HashFromBigInt hash /\
    DID_ _ _ _ cert
    = ("did:" ++ Standard_String (Content_Standard Standard content) ++ ":"
       ++ uint256.Dec (LeafHash_ _ _ _ cert))%string.
Proof.
  intros Hnew.
  destruct (New_Ok_inv _ _ _ _ _ _ _ Hnew)
    as (contentHash & leafHash & Hc & _ & Hleaf & ->).
  unfold LeafHash in Hleaf.
  destruct (babyjub.R8 providerSignature) as [r8|]; [|discriminate].
  unfold Hash_BigInt in Hleaf.
  destruct (poseidon_Hash _) as [hash | | |] eqn:Ehash; try discriminate.
  cbn [wrapErr Go.bind] in Hleaf. inversion Hleaf; subst.
  exists contentHash, r8, hash. done.
Qed.

End CertificateClaims.

Lemma New_requires_valid_signature_witness :
  zkcertificate.New Sample.Hash Sample.Verify id string id Z id
    7 {| Sample.plainValue := 11; Sample.plainStandard := "gip1" |}
    Sample.key (Sample.sig 0) 1 1700000000
  = Err (errorString "invalid signature").
Proof.
  apply (proj1 (New_requires_valid_signature Sample.Hash Sample.Verify id string id Z id
                  7 {| Sample.plainValue := 11; Sample.plainStandard := "gip1" |}
                  Sample.key (Sample.sig 0) 1 1700000000) 11).
  - reflexivity.
  - reflexivity.
Defined.

Lemma New_LeafHash_and_DID_witness :
  exists cert,
    zkcertificate.New Sample.Hash Sample.Verify id string id Z id
      7 {| Sample.plainValue := 11; Sample.plainStandard := "gip1" |}
      Sample.key (Sample.sig 95) 1 1700000000 = Ok cert /\
    exists contentHash r8 hash,
      zkcertificate.Content_Hash string
        {| Sample.plainValue := 11; Sample.plainStandard := "gip1" |}
      = Ok contentHash /\
      babyjub.R8 (Sample.sig 95) = Some r8 /\
      Sample.Hash [Some contentHash; babyjub.X Sample.key; babyjub.Y Sample.key;
                   babyjub.S (Sample.sig 95); babyjub.X r8; babyjub.Y r8;
                   Some 7; Some 1; Some 1700000000] = Ok hash /\
      zkcertificate.LeafHash_ _ _ _ cert = hash /\
      zkcertificate.DID_ _ _ _ cert
      = ("did:" ++ "gip1" ++ ":"
         ++ uint256.Dec (zkcertificate.LeafHash_ _ _ _ cert))%string.
Proof.
  eexists. split; [reflexivity|].
  exact (New_LeafHash_and_DID Sample.Hash Sample.Verify id string id Z id
           7 {| Sample.plainValue := 11; Sample.plainStandard := "gip1" |}
           Sample.key (Sample.sig 95) 1 1700000000 _ eq_refl).
Defined.

(** ** Text decoding *)

Section TextClaims.

Import strconv.

Variable json_Unmarshal : string -> result providerDataDTO.t.

(** A string starts with a minus sign, with a plus sign, or with neither;
    in the last case every parser reads it as unsigned digits. *)
Lemma sign_cases s :
  (exists rest, s = String "-" rest) \/
  (exists rest, s = String "+" rest) \/
  (isDecimalInteger s = isDigits s /\
   isNegativeDecimal s = false /\
   big.SetString10 s = scanUnsigned s /\
   uint256.FromDecimal s
   = match scanUnsigned s with
     | Some v => if v <? 2 ^ 256 then Ok v
                 else Err (errorString "hex number > 256 bits")
     | None => Err (errorString "invalid syntax")
     end).
Proof.
  destruct s as [|c rest].
  - right. right. done.
  - destruct (ascii_dec c "-") as [-> | Hminus]; [left; eauto|].
    destruct (ascii_dec c "+") as [-> | Hplus]; [right; left; eauto|].
    right. right.
    destruct c as [[] [] [] [] [] [] [] []]; try done.
Qed.

Lemma SetString10_None s :
  isDecimalInteger s = false -> big.SetString10 s = None.
Proof.
  intros H. destruct (sign_cases s) as [[rest ->] | [[rest ->] | (Hd & _ & -> & _)]].
  - simpl in *. unfold isDigits in H.
    by destruct (scanUnsigned rest).
  - simpl in *. unfold isDigits in H.
    by destruct (scanUnsigned rest).
  - rewrite Hd in H. unfold isDigits in H. by destruct (scanUnsigned s).
Qed.

Lemma FromDecimal_rejects s :
  isDecimalInteger s = false \/ isNegativeDecimal s = true ->
  exists e, uint256.FromDecimal s = Err e.
Proof.
  intros H. destruct (sign_cases s) as [[rest ->] | [[rest ->] | (Hd & Hn & _ & ->)]].
  - eexists. reflexivity.
  - destruct H as [H | H]; [|discriminate].
    simpl in H. unfold isDigits in H. unfold uint256.FromDecimal.
    destruct (scanUnsigned rest); [discriminate | eauto].
  - destruct H as [H | H]; [|congruence].
    rewrite Hd in H. unfold isDigits in H.
    destruct (scanUnsigned s); [discriminate | eauto].
Qed.

(** C9, as the code behaves. [TreeNode.UnmarshalText] rejects every string
    that is not a decimal integer and every negative one.
    [ProviderData.UnmarshalJSON] rejects every provider-data object whose
    [ax], [bx], [s], [r8x] or [r8y] field is not a decimal integer (an
    optional sign followed by digits). *)
Theorem text_decoding_rejects_malformed :
  (forall n text,
     isDecimalInteger text = false \/ isNegativeDecimal text = true ->
     exists e, (merkle_text.UnmarshalText n text).2 = Err e) /\
  (forall p data dto,
     json_Unmarshal data = Ok dto ->
     isDecimalInteger (providerDataDTO.Ax dto) = false \/
     isDecimalInteger (providerDataDTO.Bx dto) = false \/
     isDecimalInteger (providerDataDTO.S dto) = false \/
     isDecimalInteger (providerDataDTO.R8x dto) = false \/
     isDecimalInteger (providerDataDTO.R8y dto) = false ->
     exists e, (zkcertificate.UnmarshalJSON json_Unmarshal p data).2 = Err e).
Proof.
  split.
  - intros n text H. destruct (FromDecimal_rejects text H) as [e He].
    exists e. unfold merkle_text.UnmarshalText. by rewrite He.
  - intros p data dto Hjson H. unfold zkcertificate.UnmarshalJSON. rewrite Hjson.
    destruct (big.SetString10 (providerDataDTO.Ax dto)) as [x|] eqn:Ex;
      [|eexists; reflexivity].
    destruct (big.SetString10 (providerDataDTO.Bx dto)) as [y|] eqn:Ey;
      [|eexists; reflexivity].
    destruct (big.SetString10 (providerDataDTO.R8x dto)) as [r8x|] eqn:Er8x;
      [|eexists; reflexivity].
    destruct (big.SetString10 (providerDataDTO.R8y dto)) as [r8y|] eqn:Er8y;
      [|eexists; reflexivity].
    destruct (big.SetString10 (providerDataDTO.S dto)) as [s|] eqn:Es;
      [|eexists; reflexivity].
    exfalso.
    destruct H as [H | [H | [H | [H | H]]]];
      apply SetString10_None in H; congruence.
Qed.

End TextClaims.

Lemma text_decoding_rejects_malformed_witness :
  (exists e, (merkle_text.UnmarshalText merkle.zeroNode "-5").2 = Err e) /\
  (exists e,
     (zkcertificate.UnmarshalJSON
        (Sample.decodeTo {| providerDataDTO.Ax := "1"; providerDataDTO.Bx := "0x2";
                            providerDataDTO.S := "3"; providerDataDTO.R8x := "4";
                            providerDataDTO.R8y := "5" |})
        Sample.emptyProvider EmptyString).2 = Err e).
Proof.
  split.
  - apply (proj1 (text_decoding_rejects_malformed
                    (Sample.decodeTo
                       {| providerDataDTO.Ax := "1"; providerDataDTO.Bx := "0x2";
                          providerDataDTO.S := "3"; providerDataDTO.R8x := "4";
                          providerDataDTO.R8y := "5" |}))).
    right. reflexivity.
  - apply (proj2 (text_decoding_rejects_malformed
                    (Sample.decodeTo
                       {| providerDataDTO.Ax := "1"; providerDataDTO.Bx := "0x2";
                          providerDataDTO.S := "3"; providerDataDTO.R8x := "4";
                          providerDataDTO.R8y := "5" |}))
             Sample.emptyProvider EmptyString
             {| providerDataDTO.Ax := "1"; providerDataDTO.Bx := "0x2";
                providerDataDTO.S := "3"; providerDataDTO.R8x := "4";
                providerDataDTO.R8y := "5" |}).
    + reflexivity.
    + right. left. reflexivity.
Defined.

(** C9 as stated fails for the provider data: [ax] holds the negative
    string [-5] and the object is accepted, with the coordinate -5. *)
Lemma UnmarshalJSON_negative_counterexample :
  strconv.isNegativeDecimal "-5" = true /\
  zkcertificate.UnmarshalJSON
    (Sample.decodeTo {| providerDataDTO.Ax := "-5"; providerDataDTO.Bx := "2";
                        providerDataDTO.S := "3"; providerDataDTO.R8x := "4";
                        providerDataDTO.R8y := "5" |})
    Sample.emptyProvider EmptyString
  = ({| zkcertificate.PublicKey := {| babyjub.X := Some (-5); babyjub.Y := Some 2 |};
        zkcertificate.Signature :=
          {| babyjub.R8 := Some {| babyjub.X := Some 4; babyjub.Y := Some 5 |};
             babyjub.S := Some 3 |} |}, Ok tt).
Proof. split; reflexivity. Qed.

(** * Further properties of the tree engine *)

Section TreeEngine.

Import merkle spec.

Variable HashFunc : list (option Z) -> result Z.

(** A node on a path below its top has an internal node as parent. *)
Lemma parent_internal n j :
  Z.odd n = true -> n < 2 ^ 62 -> 1 <= j < n ->
  internal n (GetParentIndex j).
Proof.
  intros Hodd Hn Hj. apply Z.odd_spec in Hodd as [half Hhalf].
  pose proof (GetParentIndex_lt j ltac:(lia)).
  destruct (sibling_of_child j ltac:(lia)) as [(Hc & _ & Ho) | (Hc & _ & Ho)].
  - split; [lia|]. apply Z.odd_spec in Ho as [m Hm]. lia.
  - split; lia.
Qed.

(** Soundness of inclusion proofs. In a tree of depth [d] that satisfies
    the node invariant, the proof of any leaf rebuilds the root from the
    value stored at that leaf. *)
Theorem GetProof_rebuilds_root d t i leaf :
  hasDepth d t -> NodeInvariant HashFunc t ->
  0 <= i < 2 ^ (d - 1) ->
  Go.index (Nodes t) (leafNode t i) = Ok leaf ->
  exists proof root,
    GetProof t i = Ok proof /\
    Root t = Ok root /\
    rebuildRoot HashFunc leaf (take (Z.to_nat (d - 1)) (Path proof))
      (Indices proof) 0 = Ok root.
Proof.
  intros Ht Hinv Hi Hleaf.
  pose proof (hasDepth_small d t Ht) as Hsmall.
  pose proof (hasDepth_odd d t Ht) as Hodd.
  destruct (GetProof_spec d t i Ht Hi) as (proof & Eproof & _ & Hsibs & _ & Hbits).
  destruct (index_in_range (Nodes t) 0 ltac:(lia)) as [root Eroot].
  exists proof, root. split; [done|]. split; [done|].
  destruct (leafNode_level d t i Ht Hi) as [Hlevel Hin].
  destruct Ht as [Hd _]. rewrite <- Eroot.
  apply (rebuildRoot_climb_levels HashFunc (Nodes t) (leafNode t i)
           (Z.to_nat (d - 1)) (Path proof) (Indices proof)
           ltac:(lia) Hlevel) with (k := 0%nat); [| | | lia | done].
  - intros k Hk. apply Hinv. rewrite <- pathNode_parent.
    pose proof (pathNode_positive (Z.to_nat (d - 1)) (leafNode t i) k
                  ltac:(lia) Hk Hlevel).
    pose proof (pathNode_range (leafNode t i) k ltac:(lia)).
    apply parent_internal; [done | lia | lia].
  - intros k Hk. apply Hsibs. lia.
  - intros k. rewrite Hbits by lia. by rewrite Nat2Z.id.
Qed.

(** Every tree the engine can reach, an empty tree followed by any number
    of successful [SetLeaf] calls, has the depth it was created with and
    satisfies the node invariant. *)
Theorem reachable_NodeInvariant d t :
  reachable HashFunc d t -> hasDepth d t /\ NodeInvariant HashFunc t.
Proof.
  induction 1 as [v t Hnew | t i x t' Hreach [Ht Hinv] Hset].
  - by apply (NewEmptyTree_invariant HashFunc d v).
  - by apply (SetLeaf_invariant HashFunc d t i x).
Qed.

(** Index validation. On a tree of depth [d], [GetProof(i)] fails with
    [invalid leaf index] exactly when [i] is outside [0 .. 2^(d-1) - 1], and
    then [SetLeaf(i, x)] fails with the same error and leaves the tree as
    it was. *)
Theorem leaf_index_validation d t i :
  hasDepth d t ->
  (GetProof t i = Err (errorString "invalid leaf index")
   <-> ~ (0 <= i < 2 ^ (d - 1))) /\
  (~ (0 <= i < 2 ^ (d - 1)) ->
   forall x, SetLeaf HashFunc t i x = (t, Err (errorString "invalid leaf index"))).
Proof.
  intros Ht. pose proof (hasDepth_leaves d t Ht) as Hleaves. split; [split|].
  - intros Herr Hi.
    destruct (GetProof_spec d t i Ht Hi) as (proof & Eproof & _). congruence.
  - intros Hi. unfold GetProof. rewrite Hleaves.
    destruct (Z.geb_spec i (2 ^ (d - 1))); [done|].
    destruct (Z.ltb_spec i 0); [done | lia].
  - intros Hi x. unfold SetLeaf. rewrite Hleaves.
    destruct (Z.geb_spec i (2 ^ (d - 1))); [done|].
    destruct (Z.ltb_spec i 0); [done | lia].
Qed.

(** The ancestors of a leaf are not leaves. *)
Lemma leaf_not_on_other_path d t i j :
  hasDepth d t -> 0 <= i < 2 ^ (d - 1) -> 0 <= j < 2 ^ (d - 1) -> i <> j ->
  forall k, pathNode (leafNode t i) k <> leafNode t j.
Proof.
  intros Ht Hi Hj Hne k.
  destruct (leafNode_level d t i Ht Hi) as [Hlevel _].
  rewrite (hasDepth_leafNode d t j Ht Hj).
  destruct k as [|k]; [simpl; rewrite (hasDepth_leafNode d t i Ht Hi); lia|].
  destruct Ht as [Hd _]. rewrite Z2Nat.id in Hlevel by lia.
  destruct (Nat.le_gt_cases (S k) (Z.to_nat (d - 1))) as [Hk | Hk].
  - pose proof (pathNode_level (Z.to_nat (d - 1)) (leafNode t i) (S k)
                  ltac:(lia) Hk) as Hpk.
    rewrite Z2Nat.id in Hpk by lia. specialize (Hpk Hlevel).
    assert (2 ^ (Z.of_nat (Z.to_nat (d - 1) - S k) + 1) <= 2 ^ (d - 1))
      by (apply Z.pow_le_mono_r; lia).
    lia.
  - replace (S k) with ((S k - Z.to_nat (d - 1)) + Z.to_nat (d - 1))%nat by lia.
    unfold pathNode. rewrite Nat.iter_add.
    fold (pathNode (leafNode t i) (Z.to_nat (d - 1))).
    rewrite (pathNode_top (Z.to_nat (d - 1))); [| lia | by rewrite Z2Nat.id by lia].
    fold (pathNode 0 (S k - Z.to_nat (d - 1))). rewrite pathNode_zero.
    pose proof (pow2_pred (d - 1)).
    destruct (Z.eq_dec d 1) as [-> | ?]; [simpl in *; lia|].
    pose proof (pow2_le_62 (d - 1 - 1) ltac:(lia)). lia.
Qed.

(** Store and read back. After a successful [SetLeaf(i, x)] on a tree of
    depth [d], the slot of leaf [i] holds [x], every other leaf slot holds
    what it held before, and the number of nodes is unchanged. *)
Theorem SetLeaf_updates_one_leaf d t i x t' :
  hasDepth d t ->
  SetLeaf HashFunc t i x = (t', Ok tt) ->
  Go.len (Nodes t') = Go.len (Nodes t) /\
  Go.index (Nodes t') (leafNode t i) = Ok x /\
  forall j, 0 <= j < 2 ^ (d - 1) -> j <> i ->
    Go.index (Nodes t') (leafNode t j) = Go.index (Nodes t) (leafNode t j).
Proof.
  intros Ht Hset. pose proof (hasDepth_small d t Ht) as Hsmall.
  pose proof (SetLeaf_frame HashFunc t i x t' (Ok tt) ltac:(lia) Hset) as [Hlen Hframe].
  pose proof (SetLeaf_Ok_spec HashFunc t i x t' ltac:(lia) Hset)
    as (Hi & Hleaf & Hx & _).
  rewrite (hasDepth_leaves d) in Hi by done.
  split; [done|]. split; [done|].
  intros j Hj Hne. apply Hframe.
  - rewrite (hasDepth_leafNode d t j Ht Hj).
    destruct Ht as [Hd _]. pose proof (pow2_le_62 (d - 1) ltac:(lia)). lia.
  - by apply (leaf_not_on_other_path d).
Qed.

(** [SetLeaf] never touches a node off the path of the leaf, whether it
    succeeds, fails or panics, and never changes the number of nodes. *)
Theorem SetLeaf_writes_only_on_path t i x t' r :
  Go.len (Nodes t) < 2 ^ 62 ->
  SetLeaf HashFunc t i x = (t', r) ->
  Go.len (Nodes t') = Go.len (Nodes t) /\
  forall p, 0 <= p -> (forall k, pathNode (leafNode t i) k <> p) ->
            Go.index (Nodes t') p = Go.index (Nodes t) p.
Proof. apply SetLeaf_frame. Qed.

(** The levels of an empty tree are uniform: the node at array index [p],
    [k] levels above the leaves, holds the [k]-fold pairwise self-hash of
    the leaf value. *)
Theorem NewEmptyTree_levels d v t (k : nat) p :
  NewEmptyTree HashFunc d v = Ok t ->
  Z.of_nat k < d ->
  2 ^ (d - 1 - Z.of_nat k) - 1 <= p <= 2 ^ (d - Z.of_nat k) - 2 ->
  Go.index (Nodes t) p = hashSelf HashFunc k {| Value := v |}.
Proof.
  intros Hnew Hk Hp.
  pose proof (NewEmptyTree_depth HashFunc d v t Hnew) as Hd.
  destruct (NewEmptyTree_spec HashFunc d v Hd)
    as [(top & t0 & _ & Enew & _ & Hlevels) | [_ Hno]].
  - assert (t0 = t) as -> by congruence. by apply Hlevels.
  - by destruct (Hno t).
Qed.

End TreeEngine.

(** ** When [SetLeaf] succeeds *)

Section SetLeafSucceeds.

Import merkle spec.

Variable HashFunc : list (option Z) -> result Z.

(** A class of nodes, such as those holding a field element, that the
    hash accepts and maps into itself. *)
Variable accepted : TreeNode -> Prop.

Hypothesis hash_closed :
  forall l r, accepted l -> accepted r ->
    exists h, computeNodeHash HashFunc l r = Ok h /\ accepted h.

Lemma allAccepted_insert nodes i v :
  0 <= i < Go.len nodes -> allAccepted accepted nodes -> accepted v ->
  allAccepted accepted (<[Z.to_nat i := v]> nodes).
Proof.
  intros Hi Hall Hv p n Hp.
  pose proof (index_Ok_range _ _ _ Hp) as Hr.
  destruct (Z.eq_dec p i) as [-> | Hne].
  - rewrite index_insert_eq in Hp by done. congruence.
  - rewrite index_insert_ne in Hp by lia. by apply (Hall p).
Qed.

Lemma storeChildrenHash_succeeds j nodes :
  Go.len nodes < 2 ^ 62 -> internal (Go.len nodes) j -> allAccepted accepted nodes ->
  exists nodes',
    storeChildrenHash HashFunc j nodes = (nodes', Ok tt) /\
    Go.len nodes' = Go.len nodes /\ allAccepted accepted nodes'.
Proof.
  intros Hlen [Hj0 Hj] Hall. unfold storeChildrenHash, computeChildrenHash.
  destruct (index_in_range nodes (2 * j + 1) ltac:(lia)) as [l El].
  destruct (index_in_range nodes (2 * j + 2) ltac:(lia)) as [r Er].
  replace (getChildrenOf j nodes) with (Ok (l, r))
    by (symmetry; apply getChildrenOf_Ok; [lia | done]).
  cbn [Go.bind].
  destruct (hash_closed l r (Hall _ _ El) (Hall _ _ Er)) as (h & -> & Hh).
  rewrite store_in_range by lia.
  eexists. split; [reflexivity|]. split; [apply len_insert|].
  apply allAccepted_insert; [lia | done | done].
Qed.

Lemma recomputeAncestors_succeeds fuel : forall j nodes,
  Go.len nodes < 2 ^ 62 -> j = 0 \/ internal (Go.len nodes) j ->
  (Z.to_nat j <= fuel)%nat -> allAccepted accepted nodes ->
  exists nodes',
    recomputeAncestors HashFunc fuel j nodes = (nodes', Ok tt) /\
    Go.len nodes' = Go.len nodes /\ allAccepted accepted nodes'.
Proof.
  induction fuel as [|fuel IH]; intros j nodes Hlen Hj Hfuel Hall; simpl.
  - destruct (Z.gtb_spec j 0); [|eauto].
    destruct Hj as [-> | [Hj0 _]]; lia.
  - destruct (Z.gtb_spec j 0) as [Hpos|]; [|eauto].
    destruct Hj as [-> | Hint]; [lia|].
    destruct (storeChildrenHash_succeeds j nodes Hlen Hint Hall)
      as (nodes1 & -> & Hlen1 & Hall1).
    destruct Hint as [_ Hint].
    pose proof (GetParentIndex_lt j ltac:(lia)) as Hpar.
    destruct (IH (GetParentIndex j) nodes1) as (nodes' & Erun & Hlen' & Hall');
      [lia | | lia | done |].
    + destruct (Z.eq_dec (GetParentIndex j) 0) as [|Hne]; [by left|].
      right. split; [lia|]. destruct (child_of_parent j ltac:(lia)); lia.
    + exists nodes'. split; [done|]. split; [lia | done].
Qed.

(** On a tree of depth [d >= 2] whose nodes the hash accepts, [SetLeaf]
    with a valid index and an accepted value performs only in-bounds
    accesses, does not run out of fuel and returns without error; the
    nodes of the resulting tree are accepted again. *)
Theorem SetLeaf_succeeds d t i x :
  hasDepth d t -> 2 <= d -> 0 <= i < 2 ^ (d - 1) ->
  allAccepted accepted (Nodes t) -> accepted x ->
  exists t',
    SetLeaf HashFunc t i x = (t', Ok tt) /\
    hasDepth d t' /\ allAccepted accepted (Nodes t').
Proof.
  intros Ht Hd Hi Hall Hx.
  pose proof (hasDepth_small d t Ht) as Hsmall.
  pose proof (hasDepth_odd d t Ht) as Hodd.
  pose proof (hasDepth_leafNode d t i Ht Hi) as Hleaf.
  pose proof (leafNode_level d t i Ht Hi) as [_ Hin].
  assert (Hlen3 : 3 <= Go.len (Nodes t)).
  { destruct Ht as [Hd62 ->]. rewrite (pow2_pred d), (pow2_pred (d - 1)) by lia.
    pose proof (pow2_le_62 (d - 1 - 1) ltac:(lia)). lia. }
  assert (Hleaf1 : 1 <= leafNode t i).
  { destruct Ht as [Hd62 _]. rewrite Hleaf, (pow2_pred (d - 1)) by lia.
    pose proof (pow2_le_62 (d - 1 - 1) ltac:(lia)). lia. }
  unfold SetLeaf. fold (leafNode t i). rewrite (hasDepth_leaves d) by done.
  destruct (Z.geb_spec i (2 ^ (d - 1))); [lia|].
  destruct (Z.ltb_spec i 0); [lia|]. cbn [orb].
  rewrite store_in_range by lia.
  set (nodes1 := <[Z.to_nat (leafNode t i) := x]> (Nodes t)).
  assert (Hlen1 : Go.len nodes1 = Go.len (Nodes t)) by apply len_insert.
  assert (Hall1 : allAccepted accepted nodes1) by (apply allAccepted_insert; [lia | done | done]).
  pose proof (GetParentIndex_lt (leafNode t i) ltac:(lia)) as Hpar.
  destruct (recomputeAncestors_succeeds (Z.to_nat (leafNode t i))
              (GetParentIndex (leafNode t i)) nodes1)
    as (nodes2 & -> & Hlen2 & Hall2); [lia | | lia | done |].
  { right. rewrite Hlen1. apply parent_internal; [done | lia | lia]. }
  destruct (storeChildrenHash_succeeds 0 nodes2) as (nodes3 & -> & Hlen3' & Hall3);
    [lia | split; lia | done |].
  eexists. split; [reflexivity|]. split; [|done].
  apply (hasDepth_same_len d t); [|done]. cbn [Nodes]. lia.
Qed.

End SetLeafSucceeds.

(** The sample hash accepts field elements and returns field elements. *)
Lemma Sample_hash_closed l r :
  Sample.fieldNode l -> Sample.fieldNode r ->
  exists h, merkle.computeNodeHash Sample.Hash l r = Ok h /\ Sample.fieldNode h.
Proof.
  unfold Sample.fieldNode. destruct l as [[l|]], r as [[r|]]; simpl; try discriminate.
  intros Hl Hr. unfold merkle.computeNodeHash, Sample.Hash. simpl.
  rewrite Hl, Hr. simpl. unfold merkle.ToBig.
  set (h := Sample.mix (Sample.mix 0 (Some l)) (Some r)).
  assert (Hh : 0 <= h < Sample.Q) by (apply Z.mod_pos_bound; reflexivity).
  assert (HQ : Sample.Q < 2 ^ 256) by reflexivity.
  destruct (Z.leb_spec (2 ^ 256) (Z.abs h)); [lia|].
  eexists. split; [reflexivity|]. simpl.
  rewrite Z.mod_small by lia.
  destruct (Z.leb_spec 0 h), (Z.ltb_spec h Sample.Q); simpl; lia || done.
Qed.

Lemma Sample_tree3_accepted : spec.allAccepted Sample.fieldNode (merkle.Nodes Sample.tree3).
Proof.
  intros p n Hp. apply index_Ok in Hp as [Hp0 Hlook].
  destruct (Z.to_nat p) as [|[|[|[|[|[|[|?]]]]]]]; simpl in Hlook;
    inversion Hlook; reflexivity.
Qed.

Lemma SetLeaf_succeeds_witness :
  exists t',
    merkle.SetLeaf Sample.Hash Sample.tree3 2 (Sample.node 9) = (t', Ok tt) /\
    spec.hasDepth 3 t' /\ spec.allAccepted Sample.fieldNode (merkle.Nodes t').
Proof.
  apply (SetLeaf_succeeds Sample.Hash Sample.fieldNode Sample_hash_closed 3
           Sample.tree3 2 (Sample.node 9)).
  - split; [lia | reflexivity].
  - lia.
  - lia.
  - exact Sample_tree3_accepted.
  - reflexivity.
Defined.

(** ** The bitmask in closed form, and the index helpers *)

Section IndexFacts.

Import merkle spec.

(** In terms of one-based positions the path halves at every level. *)
Lemma pathNode_closed (h : nat) j (k : nat) :
  (h <= 61)%nat -> (k <= h)%nat ->
  2 ^ Z.of_nat h <= j + 1 < 2 ^ (Z.of_nat h + 1) ->
  pathNode j k + 1 = (j + 1) / 2 ^ Z.of_nat k.
Proof.
  intros Hh Hk Hj. induction k as [|k IH].
  - simpl. by rewrite Z.div_1_r.
  - specialize (IH ltac:(lia)).
    pose proof (pathNode_positive h j k Hh ltac:(lia) Hj) as Hpos.
    pose proof (pathNode_range j k) as Hrange.
    assert (Hj62 : 0 <= j < 2 ^ 62).
    { pose proof (pow2_le_62 (Z.of_nat h + 1) ltac:(lia)).
      pose proof (pow2_le_62 (Z.of_nat h) ltac:(lia)). lia. }
    specialize (Hrange Hj62).
    rewrite <- pathNode_parent, GetParentIndex_pos by lia.
    rewrite Nat2Z.inj_succ, Z.pow_succ_r by lia.
    rewrite (Z.mul_comm 2).
    rewrite <- Z.div_div by (try apply Z.pow_pos_nonneg; lia).
    rewrite <- IH.
    replace (pathNode j k + 1) with (pathNode j k - 1 + 1 * 2) by lia.
    rewrite Z.div_add by lia. lia.
Qed.

Lemma pathNode_above (h : nat) j (k : nat) :
  (h <= 61)%nat -> (h <= k)%nat ->
  2 ^ Z.of_nat h <= j + 1 < 2 ^ (Z.of_nat h + 1) ->
  pathNode j k = 0.
Proof.
  intros Hh Hk Hj. replace k with ((k - h) + h)%nat by lia.
  unfold pathNode. rewrite Nat.iter_add. fold (pathNode j h).
  rewrite (pathNode_top h) by done. apply pathNode_zero.
Qed.

(** The bitmask is the complement of the leaf index on [d - 1] bits. For
    a tree of depth [d] and a valid leaf index [i], the [Indices] of
    [GetProof(i)] is [2^(d-1) - 1 - i]. *)
Theorem GetProof_Indices_complement d t i :
  hasDepth d t -> 0 <= i < 2 ^ (d - 1) ->
  exists proof, GetProof t i = Ok proof /\ Indices proof = 2 ^ (d - 1) - 1 - i.
Proof.
  intros Ht Hi.
  destruct (GetProof_spec d t i Ht Hi) as (proof & Eproof & _ & _ & _ & Hbits).
  exists proof. split; [done|].
  destruct (leafNode_level d t i Ht Hi) as [Hlevel _].
  pose proof (hasDepth_leafNode d t i Ht Hi) as Hleaf.
  destruct Ht as [Hd _].
  set (m := d - 1) in *. assert (Hm : 0 <= m <= 61) by lia.
  pose proof (pow2_le_62 m ltac:(lia)) as Hpm.
  apply Z.bits_inj'. intros n Hn. rewrite Hbits by done.
  destruct (Z.lt_ge_cases n m) as [Hlow | Hhigh].
  - (* a level below the root: the negated bit of [i] *)
    assert (Hodd : Z.odd (pathNode (leafNode t i) (Z.to_nat n))
                   = negb (Z.testbit (leafNode t i + 1) n)).
    { pose proof (pathNode_closed (Z.to_nat m) (leafNode t i) (Z.to_nat n)
                    ltac:(lia) ltac:(lia) Hlevel) as Hc.
      rewrite Z2Nat.id in Hc by lia.
      rewrite Z.testbit_odd, Z.shiftr_div_pow2 by done. rewrite <- Hc.
      replace (pathNode (leafNode t i) (Z.to_nat n) + 1)
        with (Z.succ (pathNode (leafNode t i) (Z.to_nat n))) by lia.
      rewrite Z.odd_succ. by rewrite Z.negb_even. }
    rewrite Hodd, Hleaf.
    replace (2 ^ m - 1 + i + 1) with (i + 1 * 2 ^ m) by lia.
    replace (2 ^ m - 1 - i) with (Z.lnot i + 1 * 2 ^ m) by (unfold Z.lnot; lia).
    rewrite <- (Z.mod_pow2_bits_low (i + 1 * 2 ^ m) m n) by lia.
    rewrite <- (Z.mod_pow2_bits_low (Z.lnot i + 1 * 2 ^ m) m n) by lia.
    rewrite !Z.mod_add by lia.
    rewrite !Z.mod_pow2_bits_low by lia.
    by rewrite Z.lnot_spec by lia.
  - (* the root and above: no bit *)
    rewrite (pathNode_above (Z.to_nat m)) by (done || lia).
    symmetry. rewrite Z.testbit_odd, Z.shiftr_div_pow2 by done.
    assert (2 ^ m <= 2 ^ n) by (apply Z.pow_le_mono_r; lia).
    rewrite Z.div_small by lia. reflexivity.
Qed.

(** The index helpers on a node below the root: the sibling is another
    node with the same parent, the sibling of the sibling is the node
    itself, and [IsRightChild] holds exactly for the second child
    [2p + 2] of the parent [p]. *)
Theorem sibling_and_parent j :
  1 <= j < 2 ^ 62 - 1 ->
  GetSiblingIndex j <> j /\
  GetParentIndex (GetSiblingIndex j) = GetParentIndex j /\
  GetSiblingIndex (GetSiblingIndex j) = j /\
  (IsRightChild j = true <-> j = 2 * GetParentIndex j + 2) /\
  (IsRightChild j = false <-> j = 2 * GetParentIndex j + 1).
Proof.
  intros Hj. pose proof (GetParentIndex_lt j ltac:(lia)) as Hp.
  rewrite IsRightChild_even by lia. rewrite <- Z.negb_odd.
  destruct (sibling_of_child j ltac:(lia)) as [(Hc & Hs & Ho) | (Hc & Hs & Ho)];
    rewrite Ho; rewrite Hs.
  - split; [lia|]. split; [apply parent_of_right; lia|]. split.
    + destruct (sibling_of_child (2 * GetParentIndex j + 2) ltac:(lia))
        as [(Hc' & _ & _) | (_ & -> & _)].
      * rewrite parent_of_right in Hc' by lia. lia.
      * rewrite parent_of_right by lia. lia.
    + simpl. split; split; (discriminate || lia || done).
  - split; [lia|]. split; [apply parent_of_left; lia|]. split.
    + destruct (sibling_of_child (2 * GetParentIndex j + 1) ltac:(lia))
        as [(_ & -> & _) | (Hc' & _ & _)].
      * rewrite parent_of_left by lia. lia.
      * rewrite parent_of_left in Hc' by lia. lia.
    + simpl. split; split; (discriminate || lia || done).
Qed.

End IndexFacts.

Lemma GetProof_Indices_complement_witness :
  exists proof,
    merkle.GetProof Sample.tree3 1 = Ok proof /\
    merkle.Indices proof = 2 ^ (3 - 1) - 1 - 1.
Proof.
  apply (GetProof_Indices_complement 3 Sample.tree3 1).
  - split; [lia | reflexivity].
  - lia.
Defined.

Lemma sibling_and_parent_witness :
  merkle.GetSiblingIndex 5 <> 5 /\
  merkle.GetParentIndex (merkle.GetSiblingIndex 5) = merkle.GetParentIndex 5 /\
  merkle.GetSiblingIndex (merkle.GetSiblingIndex 5) = 5 /\
  (merkle.IsRightChild 5 = true <-> 5 = 2 * merkle.GetParentIndex 5 + 2) /\
  (merkle.IsRightChild 5 = false <-> 5 = 2 * merkle.GetParentIndex 5 + 1).
Proof. apply (sibling_and_parent 5). lia. Defined.
